(** * url-shortener-ts: the URL registry of [src/index.ts]

    A shallow embedding of the class [UrlShortener]: its record and storage
    types, the JavaScript object [storage.urls] used as a map, and the methods
    [shortenUrl], [expandUrl], [getStats], [listUrls] and [deleteUrl], followed
    by the properties of the registry.

    Modelling conventions.
    - Numbers ([counter], [clickCount]) are IEEE doubles that the program
      only ever adds to. A number is kept as the natural in [N] it denotes,
      and every addition is rounded as a double rounds it ([to_double]):
      exact up to 2^53, and from there on to the nearest double, so that
      [n + 1] no longer moves a counter that stands at 2^53. Properties
      that count exactly carry the bound [MAX_SAFE_INTEGER]. A storage file
      written by hand could also hold numbers that are no naturals, and
      counters of 10^21 and more, which [`url_${n}`] prints in exponent
      notation: those are outside the embedding.
    - A [Date] is its time value (milliseconds since the epoch).
    - [new Date()] and [crypto.randomInt] read the outside world; each call
      of a method receives the current time and the stream of raw random
      draws it may consume.
    - [generateShortCode] retries by recursion without a bound; the
      embedding gives it fuel and reports exhaustion as [Diverged].
    - [new URL(url)] is the platform's parser, not code of this repository:
      it is a parameter of the development ([URL_new]). *)

From Stdlib Require Import Ascii.
From stdpp Require Import base option list sorting strings pretty.

Open Scope N_scope.

(** ** Numbers

    A double holds every natural up to 2^53; above, only the multiples of a
    power of two (the unit in the last place) that have 53 significant bits.
    [Number.MAX_SAFE_INTEGER] is the last natural whose successor is still
    exact. *)

Definition MAX_SAFE_INTEGER : N := 2 ^ 53 - 1.

(** The double nearest to a natural, ties going to the even significand. *)
Definition to_double (n : N) : N :=
  let e := N.log2 n in
  if e <? 53 then n
  else
    let ulp := 2 ^ (e - 52) in
    let q := n `div` ulp in
    let r := n `mod` ulp in
    if (ulp <? 2 * r) || ((2 * r =? ulp) && N.odd q) then ulp * (q + 1)
    else ulp * q.

(** [a + b] on numbers. *)
Definition js_add (a b : N) : N := to_double (a + b).

(** [++n] and [n++] store [n + 1]. On a double the rounded sum is never
    below [n], so there the maximum is that sum (see [js_increment_double]);
    it only keeps a natural that no double holds from moving down. *)
Definition js_increment (n : N) : N := N.max n (js_add n 1).

(** ** Records *)

Definition Date := N.

(** [interface ShortenedUrl]. The optional [lastAccessed] is [None] while the
    record has no own property of that name. *)
Record ShortenedUrl := mkShortenedUrl {
  id : string;
  originalUrl : string;
  shortCode : string;
  createdAt : Date;
  clickCount : N;
  lastAccessed : option Date
}.

(** ** The object [storage.urls]

    An ordinary JavaScript object keyed by short code. Its own properties are
    kept as an association list in property order, because [Object.values]
    enumerates them in that order: array-index keys first, ascending, then
    every other key in order of creation. *)

Definition Urls := list (string * ShortenedUrl).

Definition digit_of (c : ascii) : option N :=
  let n := N_of_ascii c in
  if (48 <=? n) && (n <=? 57) then Some (n - 48) else None.

Fixpoint digits_value (s : string) (acc : N) : option N :=
  match s with
  | EmptyString => Some acc
  | String c s' =>
      match digit_of c with
      | Some d => digits_value s' (10 * acc + d)
      | None => None
      end
  end.

(** A key is an array index when it is the canonical decimal spelling of an
    integer below 2^32 - 1. *)
Definition array_index (k : string) : option N :=
  match digits_value k 0 with
  | Some n =>
      if bool_decide (pretty n = k) && (n <? 4294967295) then Some n else None
  | None => None
  end.

(** The own property [k], if there is one. *)
Fixpoint own (k : string) (l : Urls) : option ShortenedUrl :=
  match l with
  | [] => None
  | (k', v) :: l' => if decide (k' = k) then Some v else own k l'
  end.

(** Writing an existing own property keeps its place. *)
Fixpoint replace_own (k : string) (v : ShortenedUrl) (l : Urls) : Urls :=
  match l with
  | [] => []
  | (k', v') :: l' =>
      if decide (k' = k) then (k', v) :: l' else (k', v') :: replace_own k v l'
  end.

(** A new array-index key goes before the first key that is a larger index
    or no index at all. *)
Fixpoint insert_index (i : N) (k : string) (v : ShortenedUrl) (l : Urls) : Urls :=
  match l with
  | [] => [(k, v)]
  | (k', v') :: l' =>
      match array_index k' with
      | Some j => if j <? i then (k', v') :: insert_index i k v l' else (k, v) :: l
      | None => (k, v) :: l
      end
  end.

(** [obj[k] = v] on own properties. *)
Definition js_set (k : string) (v : ShortenedUrl) (l : Urls) : Urls :=
  match own k l with
  | Some _ => replace_own k v l
  | None =>
      match array_index k with
      | Some i => insert_index i k v l
      | None => l ++ [(k, v)]
      end
  end.

(** [delete obj[k]]. *)
Fixpoint js_delete (k : string) (l : Urls) : Urls :=
  match l with
  | [] => []
  | (k', v) :: l' =>
      if decide (k' = k) then js_delete k l' else (k', v) :: js_delete k l'
  end.

(** [Object.values(obj)]. *)
Definition Object_values (l : Urls) : list ShortenedUrl := l.*2.

(** [interface UrlStorage]. *)
Record UrlStorage := mkUrlStorage {
  urls : Urls;
  counter : N
}.

(** ** The state the methods act on

    Besides [this.storage], two pieces of the world are visible to the
    methods: the documents [saveStorage] has written to [storageFile]
    (newest first), and the writes that landed on objects [storage.urls]
    inherits from [Object.prototype] (see [get] and [expandUrl]). *)
Record State := mkState {
  storage : UrlStorage;
  saved : list UrlStorage;
  inherited : list (string * Date)
}.

(** [loadStorage] when the storage file does not exist. *)
Definition initial : State :=
  {| storage := {| urls := []; counter := 0 |}; saved := []; inherited := [] |}.

(** The properties every object inherits from [Object.prototype]; each holds
    an object (a function, or for [__proto__] the prototype itself). *)
Definition prototype_names : list string :=
  [ "constructor"; "__defineGetter__"; "__defineSetter__"; "hasOwnProperty";
    "__lookupGetter__"; "__lookupSetter__"; "isPrototypeOf";
    "propertyIsEnumerable"; "toString"; "valueOf"; "__proto__";
    "toLocaleString" ]%string.

(** Has [expandUrl] written through [urls["__proto__"]], that is, onto
    [Object.prototype] itself? From then on every object also inherits
    [lastAccessed] (a Date) and [clickCount] (NaN). *)
Definition polluted (st : State) : bool :=
  bool_decide ("__proto__"%string ∈ (inherited st).*1).

(** What [this.storage.urls[k]] evaluates to: an own property (a record), an
    object inherited from the prototype chain, or a falsy value ([undefined],
    or the inherited NaN under [clickCount] after pollution, which this
    program cannot tell apart). *)
Inductive Slot :=
  | Own (r : ShortenedUrl)
  | Inherited
  | Undefined.

Definition get (k : string) (st : State) : Slot :=
  match own k (urls (storage st)) with
  | Some r => Own r
  | None =>
      if bool_decide (k ∈ prototype_names) then Inherited
      else if polluted st && bool_decide (k = "lastAccessed"%string) then Inherited
      else Undefined
  end.

(** Truthiness of a slot, for [if (urls[k])] and [!urlData]. *)
Definition truthy (s : Slot) : bool :=
  match s with
  | Own _ | Inherited => true
  | Undefined => false
  end.

(** [saveStorage]: the whole storage is written over the file. *)
Definition saveStorage (st : State) : State :=
  {| storage := storage st; saved := storage st :: saved st; inherited := inherited st |}.

Definition with_storage (s : UrlStorage) (st : State) : State :=
  {| storage := s; saved := saved st; inherited := inherited st |}.

(** ** Code generation *)

Definition chars : string :=
  "abcdefghijklmnopqrstuvwxyzABCDEFGHIJKLMNOPQRSTUVWXYZ0123456789".

(** [crypto.randomInt(min, max)]: an integer in [min, max), here as a
    function of the raw draw. *)
Definition randomInt (min max raw : nat) : nat :=
  (min + raw `mod` (max - min))%nat.

(** [s.charAt(i)]: the one-character string at [i], or the empty string. *)
Definition charAt (s : string) (i : nat) : string :=
  match String.get i s with
  | Some c => String c EmptyString
  | None => EmptyString
  end.

(** The [for] loop of [generateShortCode]: [n] more characters appended to
    [result], reading the draws from position [pos] on. *)
Fixpoint draw (rnd : nat → nat) (pos n : nat) (result : string) : string :=
  match n with
  | O => result
  | S n' =>
      draw rnd (S pos) n'
        (result +:+ charAt chars (randomInt 0 (String.length chars) (rnd pos)))
  end.

(** The code drawn at the [k]-th attempt of one call. *)
Definition attempt (rnd : nat → nat) (k : nat) : string :=
  draw rnd (6 * k) 6 EmptyString.

(** [generateShortCode], with [tries] attempts already made. [None] when the
    fuel runs out before a free code is drawn. *)
Fixpoint generateShortCode (fuel : nat) (rnd : nat → nat) (tries : nat)
    (st : State) : option string :=
  match fuel with
  | O => None
  | S fuel' =>
      let result := attempt rnd tries in
      if truthy (get result st) then generateShortCode fuel' rnd (S tries) st
      else Some result
  end.

(** The alphabet [A-Za-z0-9], by character code. *)
Definition alphanumeric (c : ascii) : bool :=
  let n := N_of_ascii c in
  ((97 <=? n) && (n <=? 122)) || ((65 <=? n) && (n <=? 90)) ||
  ((48 <=? n) && (n <=? 57)).

Fixpoint string_forall (P : ascii → bool) (s : string) : bool :=
  match s with
  | EmptyString => true
  | String c s' => P c && string_forall P s'
  end.

(** Does the character occur in the string? *)
Fixpoint occurs (c : ascii) (s : string) : bool :=
  match s with
  | EmptyString => false
  | String c' s' => bool_decide (c' = c) || occurs c s'
  end.

(** ** Results of the methods *)

(** The two errors [shortenUrl] throws (its messages read "invalid URL" and
    "this code is already in use"). *)
Inductive Error :=
  | InvalidUrl
  | CodeAlreadyExists.

(** How a call ends: with a value, with a thrown error, or never (the retry
    of [generateShortCode] out of fuel). The state is the one left behind. *)
Inductive Outcome (A : Type) :=
  | Returned (a : A) (st : State)
  | Thrown (e : Error) (st : State)
  | Diverged.
Arguments Returned {A} a st.
Arguments Thrown {A} e st.
Arguments Diverged {A}.

(** What [expandUrl] hands back: declared [string | null], and [undefined]
    when [originalUrl] is read off an inherited object. *)
Inductive Expanded :=
  | js_string (s : string)
  | js_null
  | js_undefined.

(** The entries of [topUrls]. *)
Record TopUrl := mkTopUrl {
  top_shortCode : string;
  top_originalUrl : string;
  top_clickCount : N
}.

(** The aggregate object [getStats()] returns. *)
Record Totals := mkTotals {
  totalUrls : nat;
  totalClicks : N;
  topUrls : list TopUrl
}.

(** The three shapes of [getStats]'s result. A summary read off an inherited
    object has no field of a record; it is kept as [SummaryOfInherited]. *)
Inductive Stats :=
  | Summary (originalUrl shortCode : string) (clickCount : N)
      (createdAt : Date) (lastAccessed : option Date)
  | SummaryOfInherited
  | StatsNull
  | Aggregate (t : Totals).

(** [customCode || ...]: an absent or empty custom code is falsy. *)
Definition js_or (customCode : option string) (other : option string) : option string :=
  match customCode with
  | Some c => if bool_decide (c = EmptyString) then other else Some c
  | None => other
  end.

(** [Array.prototype.sort(cmp)]: a stable sort; [a] goes before [b] when
    [cmp a b < 0], and elements that compare equal keep their order. *)
Fixpoint sort_insert {A} (cmp : A → A → Z) (a : A) (l : list A) : list A :=
  match l with
  | [] => [a]
  | b :: l' => if (cmp b a <? 0)%Z then b :: sort_insert cmp a l' else a :: b :: l'
  end.

Definition js_sort {A} (cmp : A → A → Z) (l : list A) : list A :=
  foldr (sort_insert cmp) [] l.

(** The comparator of [getStats]: [(a, b) => b.clickCount - a.clickCount].
    The sort only looks at the sign of the difference, and the difference of
    two doubles, though rounded, has the sign of the exact difference. *)
Definition by_clicks (a b : ShortenedUrl) : Z :=
  (Z.of_N (clickCount b) - Z.of_N (clickCount a))%Z.

(** [Object.prototype.lastAccessed], once [expandUrl] has written it: the
    newest write through [__proto__]. *)
Definition prototype_lastAccessed (st : State) : option Date :=
  (λ x, x.2.2) <$> list_find (λ w, w.1 = "__proto__"%string) (inherited st).

(** [urlData.lastAccessed] as a property read sees it: the record's own, else
    the inherited one. *)
Definition read_lastAccessed (r : ShortenedUrl) (st : State) : option Date :=
  match lastAccessed r with
  | Some d => Some d
  | None => prototype_lastAccessed st
  end.

(** A URL validator used to run the development on concrete inputs: the
    input must start with a scheme (a letter, then letters, digits, [+], [-]
    or [.]) followed by a colon and at least one more character. It stands
    in for the platform's parser in the examples only. *)
Definition scheme_char (c : ascii) : bool :=
  let n := N_of_ascii c in
  ((97 <=? n) && (n <=? 122)) || ((65 <=? n) && (n <=? 90)) ||
  ((48 <=? n) && (n <=? 57)) || (n =? 43) || (n =? 45) || (n =? 46).

Definition alpha_char (c : ascii) : bool :=
  let n := N_of_ascii c in
  ((97 <=? n) && (n <=? 122)) || ((65 <=? n) && (n <=? 90)).

Fixpoint after_scheme (s : string) : bool :=
  match s with
  | EmptyString => false
  | String c s' =>
      if bool_decide (c = ":"%char) then negb (bool_decide (s' = EmptyString))
      else scheme_char c && after_scheme s'
  end.

Definition example_URL (s : string) : bool :=
  match s with
  | EmptyString => false
  | String c s' => alpha_char c && after_scheme s'
  end.

(** The specification's reading of a valid URL, kept apart from the
    program's test [isValidUrl] to compare the two: an absolute URL in which
    a scheme and an authority parse, that is a scheme, a colon, and the two
    slashes that introduce an authority, which is not empty. *)
Definition begins_authority (s : string) : bool :=
  match s with
  | String "/" (String "/" (String c _)) =>
      negb (bool_decide (c = "/"%char ∨ c = "?"%char ∨ c = "#"%char))
  | _ => false
  end.

Fixpoint spec_after_scheme (s : string) : bool :=
  match s with
  | EmptyString => false
  | String c s' =>
      if bool_decide (c = ":"%char) then begins_authority s'
      else scheme_char c && spec_after_scheme s'
  end.

Definition spec_scheme_and_authority (s : string) : bool :=
  match s with
  | EmptyString => false
  | String c s' => alpha_char c && spec_after_scheme s'
  end.

(** The sum of [clickCount] over a list of records. *)
Fixpoint sum_clicks (l : list ShortenedUrl) : N :=
  match l with
  | [] => 0
  | r :: l' => clickCount r + sum_clicks l'
  end.

(** Most clicks first. *)
Definition more_clicks (a b : ShortenedUrl) : Prop := clickCount b ≤ clickCount a.

(** The entry of [topUrls] a record is reduced to. *)
Definition top_of (url : ShortenedUrl) : TopUrl :=
  {| top_shortCode := shortCode url;
     top_originalUrl := originalUrl url;
     top_clickCount := clickCount url |}.

(** ** The methods of [UrlShortener] *)

Section UrlShortener.

(** [URL_new url] tells whether [new URL(url)] returns (rather than throws). *)
Variable URL_new : string → bool.

Definition isValidUrl (url : string) : bool :=
  if URL_new url then true else false.

(** [Object.values(this.storage.urls).find(url => url.originalUrl === originalUrl)] *)
Definition findExisting (originalUrl' : string) (st : State) : option ShortenedUrl :=
  find (λ url, bool_decide (originalUrl url = originalUrl'))
       (Object_values (urls (storage st))).

Definition shortenUrl (fuel : nat) (rnd : nat → nat) (now : Date)
    (originalUrl' : string) (customCode : option string) (st : State)
    : Outcome ShortenedUrl :=
  if negb (isValidUrl originalUrl') then Thrown InvalidUrl st
  else
    match findExisting originalUrl' st with
    | Some existing => Returned existing st
    | None =>
        match js_or customCode (generateShortCode fuel rnd 0 st) with
        | None => Diverged
        | Some shortCode' =>
            if truthy (get shortCode' st) then Thrown CodeAlreadyExists st
            else
              let counter' := js_increment (counter (storage st)) in
              let shortenedUrl :=
                {| id := "url_" +:+ pretty counter';
                   originalUrl := originalUrl';
                   shortCode := shortCode';
                   createdAt := now;
                   clickCount := 0;
                   lastAccessed := None |} in
              Returned shortenedUrl
                (saveStorage
                   (with_storage
                      {| urls := js_set shortCode' shortenedUrl (urls (storage st));
                         counter := counter' |} st))
        end
    end.

Definition expandUrl (shortCode' : string) (trackClick : bool) (now : Date)
    (st : State) : Expanded * State :=
  match get shortCode' st with
  | Undefined => (js_null, st)
  | Own urlData =>
      if trackClick then
        let urlData' :=
          {| id := id urlData;
             originalUrl := originalUrl urlData;
             shortCode := shortCode urlData;
             createdAt := createdAt urlData;
             clickCount := js_increment (clickCount urlData);
             lastAccessed := Some now |} in
        (js_string (originalUrl urlData'),
         saveStorage
           (with_storage
              {| urls := replace_own shortCode' urlData' (urls (storage st));
                 counter := counter (storage st) |} st))
      else (js_string (originalUrl urlData), st)
  | Inherited =>
      (* [urlData] is an object of the prototype chain: the two writes land
         on it, and it has no [originalUrl]. *)
      if trackClick then
        (js_undefined,
         saveStorage
           {| storage := storage st; saved := saved st;
              inherited := (shortCode', now) :: inherited st |})
      else (js_undefined, st)
  end.

Definition getTotals (st : State) : Totals :=
  let allUrls := Object_values (urls (storage st)) in
  {| totalUrls := length allUrls;
     totalClicks := fold_left (λ sum url, js_add sum (clickCount url)) allUrls 0;
     topUrls :=
       top_of <$> take 5 (js_sort by_clicks allUrls) |}.

Definition getStats (shortCode' : option string) (st : State) : Stats :=
  match js_or shortCode' None with
  | Some c =>
      match get c st with
      | Own urlData =>
          Summary (originalUrl urlData) (shortCode urlData) (clickCount urlData)
            (createdAt urlData) (read_lastAccessed urlData st)
      | Inherited => SummaryOfInherited
      | Undefined => StatsNull
      end
  | None => Aggregate (getTotals st)
  end.

Definition listUrls (st : State) : list ShortenedUrl :=
  Object_values (urls (storage st)).

Definition deleteUrl (shortCode' : string) (st : State) : bool * State :=
  if truthy (get shortCode' st) then
    (true,
     saveStorage
       (with_storage
          {| urls := js_delete shortCode' (urls (storage st));
             counter := counter (storage st) |} st))
  else (false, st).

Definition getFullShortUrl (baseUrl shortCode' : string) : string :=
  baseUrl +:+ "/" +:+ shortCode'.

(** ** Sequences of calls *)

Inductive Call :=
  | CallShorten (fuel : nat) (rnd : nat → nat) (now : Date)
      (originalUrl : string) (customCode : option string)
  | CallExpand (shortCode : string) (trackClick : bool) (now : Date)
  | CallStats (shortCode : option string)
  | CallList
  | CallDelete (shortCode : string).

(** The state after one call; [None] when the call never returns. A thrown
    error is caught by the caller, as the command line does. *)
Definition step (c : Call) (st : State) : option State :=
  match c with
  | CallShorten fuel rnd now u cc =>
      match shortenUrl fuel rnd now u cc st with
      | Returned _ st' | Thrown _ st' => Some st'
      | Diverged => None
      end
  | CallExpand code track now => Some (expandUrl code track now st).2
  | CallStats _ | CallList => Some st
  | CallDelete code => Some (deleteUrl code st).2
  end.

(** The state after a sequence of calls; a call that never returns ends it. *)
Fixpoint run (cs : list Call) (st : State) : State :=
  match cs with
  | [] => st
  | c :: cs' =>
      match step c st with
      | Some st' => run cs' st'
      | None => st
      end
  end.

(** The record a call constructs: the one [shortenUrl] returns when no
    record for the URL existed beforehand. *)
Definition constructed (c : Call) (st : State) : option ShortenedUrl :=
  match c with
  | CallShorten fuel rnd now u cc =>
      match shortenUrl fuel rnd now u cc st with
      | Returned r _ =>
          match findExisting u st with
          | Some _ => None
          | None => Some r
          end
      | _ => None
      end
  | _ => None
  end.

(** The ids assigned along a sequence of calls, oldest first. *)
Fixpoint assigned (cs : list Call) (st : State) : list string :=
  match cs with
  | [] => []
  | c :: cs' =>
      match step c st with
      | Some st' =>
          match constructed c st with
          | Some r => id r :: assigned cs' st'
          | None => assigned cs' st'
          end
      | None => []
      end
  end.

(** States the program reaches from a missing storage file. *)
Definition reachable (st : State) : Prop :=
  ∃ cs, st = run cs initial.

(** ** The data model's invariant

    Own keys are distinct (they are properties of one object); every record
    sits under its own short code; no key is the empty string; every stored
    URL passed validation; no URL is stored twice; and every id is
    [url_n] for some [n] between 1 and the counter. *)
Record registry_inv (st : State) : Prop := {
  inv_keys : NoDup (urls (storage st)).*1;
  inv_code : ∀ k r, (k, r) ∈ urls (storage st) → shortCode r = k;
  inv_nonempty : ∀ k r, (k, r) ∈ urls (storage st) → k ≠ EmptyString;
  inv_valid : ∀ k r, (k, r) ∈ urls (storage st) → isValidUrl (originalUrl r) = true;
  inv_unique : ∀ k1 r1 k2 r2,
    (k1, r1) ∈ urls (storage st) → (k2, r2) ∈ urls (storage st) →
    originalUrl r1 = originalUrl r2 → k1 = k2;
  inv_ids : ∀ k r, (k, r) ∈ urls (storage st) →
    ∃ n, 1 ≤ n ≤ counter (storage st) ∧ id r = "url_" +:+ pretty n
}.

End UrlShortener.

(** ** Further invariants *)

(** No record sits under a name [storage.urls] inherits. *)
Definition no_inherited_keys (st : State) : Prop :=
  ∀ k r, (k, r) ∈ urls (storage st) → k ∉ prototype_names.

(** The document last handed to the storage file is the storage in memory
    (or nothing was written yet and the storage is still the empty one). *)
Definition in_sync (st : State) : Prop :=
  match saved st with
  | [] => storage st = storage initial
  | d :: _ => d = storage st
  end.

(** ** The command line

    [handleCommandLineArgs] and [demonstrateUrlShortener] print with
    [console.log]; a printed line is kept as the template it comes from and
    the values filled into it. Both work on a [new UrlShortener()], whose
    base URL is the default and whose storage is the one just loaded; the
    state passed in is that loaded state. The calendar and the random source
    are read once per method call, in the order of the calls. *)

Inductive Line :=
  (* demonstrateUrlShortener *)
  | DemoBanner
  | DemoShortenHeading
  | DemoOriginal (url : string)
  | DemoShortUrl (full : string)
  | DemoCode (code : string)
  | DemoError (e : Error)
  | DemoCustomHeading
  | DemoCustomUrl (full : string)
  | DemoCustomError (e : Error)
  | DemoExpandHeading
  | DemoExpandCode (code : string)
  | DemoExpanded (v : Expanded)
  | DemoStatsHeading
  | DemoTotalUrls (n : nat)
  | DemoTotalClicks (n : N)
  | DemoPopularHeading
  | DemoPopular (rank : nat) (code : string) (clicks : N)
  (* handleCommandLineArgs *)
  | UsageShorten
  | ShortUrl (full : string)
  | Code (code : string)
  | ErrorLine (e : Error)
  | UsageExpand
  | Original (url : string)
  | NotFound
  | StatsOf (s : Stats)
  | OverallStats (t : Totals)
  | ListHeading (n : nat)
  | ListEntry (code url : string) (clicks : N)
  | UsageDelete
  | Deleted (code : string)
  | Commands.

(** The constructor's default [baseUrl]. *)
Definition default_baseUrl : string := "https://short.ly".

(** [toLowerCase] on the letters A to Z; other characters are kept. (No
    other character lowers to a letter of the command names, so the
    comparison with them is the one the program makes.) *)
Definition lower_char (c : ascii) : ascii :=
  let n := N_of_ascii c in
  if (65 <=? n) && (n <=? 90) then ascii_of_N (n + 32) else c.

Fixpoint toLowerCase (s : string) : string :=
  match s with
  | EmptyString => EmptyString
  | String c s' => String (lower_char c) (toLowerCase s')
  end.

Definition testUrls : list string :=
  [ "https://www.google.com"; "https://github.com/microsoft/typescript";
    "https://nodejs.org/en/docs/" ]%string.

Section CommandLine.

Variable URL_new : string → bool.

(** The body of [testUrls.forEach], as the [i]-th method call. *)
Definition demo_shorten (fuel : nat) (rnd : nat → nat → nat) (now : nat → Date)
    (i : nat) (url : string) (st : State) : option (list Line * State) :=
  match shortenUrl URL_new fuel (rnd i) (now i) url None st with
  | Returned shortened st' =>
      Some ([ DemoOriginal url;
              DemoShortUrl (getFullShortUrl default_baseUrl (shortCode shortened));
              DemoCode (shortCode shortened) ], st')
  | Thrown e st' => Some ([DemoError e], st')
  | Diverged => None
  end.

Fixpoint demo_forEach (fuel : nat) (rnd : nat → nat → nat) (now : nat → Date)
    (i : nat) (urls' : list string) (st : State) : option (list Line * State) :=
  match urls' with
  | [] => Some ([], st)
  | url :: rest =>
      match demo_shorten fuel rnd now i url st with
      | Some (out, st') =>
          match demo_forEach fuel rnd now (S i) rest st' with
          | Some (out', st'') => Some (out ++ out', st'')
          | None => None
          end
      | None => None
      end
  end.

(** The custom code test, the fourth method call. *)
Definition demo_custom (fuel : nat) (rnd : nat → nat → nat) (now : nat → Date)
    (st : State) : option (list Line * State) :=
  match shortenUrl URL_new fuel (rnd 3%nat) (now 3%nat) "https://example.com"
          (Some "example"%string) st with
  | Returned customShortened st' =>
      Some ([DemoCustomUrl
               (getFullShortUrl default_baseUrl (shortCode customShortened))], st')
  | Thrown e st' => Some ([DemoCustomError e], st')
  | Diverged => None
  end.

(** The expansion test: a tracked expansion of the first listed record. *)
Definition demo_expand (now : nat → Date) (st : State) : list Line * State :=
  match head (listUrls st) with
  | Some firstUrl =>
      let (expanded, st') := expandUrl (shortCode firstUrl) true (now 4%nat) st in
      ([DemoExpandCode (shortCode firstUrl); DemoExpanded expanded], st')
  | None => ([], st)
  end.

(** The statistics, from [getStats()] without a code. *)
Definition demo_stats (st : State) : list Line :=
  let stats := getTotals st in
  [DemoTotalUrls (totalUrls stats); DemoTotalClicks (totalClicks stats)]
  ++ match topUrls stats with
     | [] => []
     | tops =>
         DemoPopularHeading ::
         imap (λ index url,
                 DemoPopular (index + 1) (top_shortCode url) (top_clickCount url))
              tops
     end.

Definition demonstrateUrlShortener (fuel : nat) (rnd : nat → nat → nat)
    (now : nat → Date) (st : State) : option (list Line * State) :=
  '(out1, st1) ← demo_forEach fuel rnd now 0 testUrls st;
  '(out2, st2) ← demo_custom fuel rnd now st1;
  let (out3, st3) := demo_expand now st2 in
  Some ([DemoBanner; DemoShortenHeading] ++ out1
        ++ [DemoCustomHeading] ++ out2
        ++ [DemoExpandHeading] ++ out3
        ++ [DemoStatsHeading] ++ demo_stats st3, st3).

Definition handleCommandLineArgs (fuel : nat) (rnd : nat → nat → nat)
    (now : nat → Date) (args : list string) (st : State)
    : option (list Line * State) :=
  match args with
  | [] => demonstrateUrlShortener fuel rnd now st
  | arg0 :: operands =>
      let command := toLowerCase arg0 in
      if bool_decide (command = "shorten"%string ∨ command = "short"%string) then
        match operands with
        | [] => Some ([UsageShorten], st)
        | url :: operands' =>
            let customCode := head operands' in
            match shortenUrl URL_new fuel (rnd 0%nat) (now 0%nat) url customCode st with
            | Returned shortened st' =>
                Some ([ ShortUrl (getFullShortUrl default_baseUrl (shortCode shortened));
                        Code (shortCode shortened) ], st')
            | Thrown e st' => Some ([ErrorLine e], st')
            | Diverged => None
            end
        end
      else if bool_decide (command = "expand"%string) then
        match operands with
        | [] => Some ([UsageExpand], st)
        | code :: _ =>
            let (expanded, st') := expandUrl code false (now 0%nat) st in
            match expanded with
            | js_string url =>
                if bool_decide (url = EmptyString) then Some ([NotFound], st')
                else Some ([Original url], st')
            | js_null | js_undefined => Some ([NotFound], st')
            end
        end
      else if bool_decide (command = "stats"%string) then
        match operands with
        | code :: _ =>
            match getStats (Some code) st with
            | StatsNull => Some ([NotFound], st)
            | stats => Some ([StatsOf stats], st)
            end
        | [] => Some ([OverallStats (getTotals st)], st)
        end
      else if bool_decide (command = "list"%string) then
        let urls' := listUrls st in
        Some (ListHeading (length urls')
              :: ((λ url, ListEntry (shortCode url) (originalUrl url) (clickCount url))
                  <$> urls'), st)
      else if bool_decide (command = "delete"%string) then
        match operands with
        | [] => Some ([UsageDelete], st)
        | code :: _ =>
            let (deleted, st') := deleteUrl code st in
            if deleted then Some ([Deleted code], st') else Some ([NotFound], st')
        end
      else Some ([Commands], st)
  end.

End CommandLine.

(** ** Creation order *)

(** [a] was assigned before [b]: both are [url_n], with the smaller number. *)
Definition older (a b : string) : Prop :=
  ∃ n m : N, a = "url_" +:+ pretty n ∧ b = "url_" +:+ pretty m ∧ n < m.

(** The ids of the records whose code is no array index, in listing order. *)
Fixpoint named_ids (l : Urls) : list string :=
  match l with
  | [] => []
  | (k, r) :: l' =>
      match array_index k with
      | Some _ => named_ids l'
      | None => id r :: named_ids l'
      end
  end.

(** The records under codes that are no array index are listed in the order
    they were created, and no id exceeds the counter. *)
Definition creation_order (st : State) : Prop :=
  StronglySorted older (named_ids (urls (storage st)))
  ∧ ∀ i, i ∈ named_ids (urls (storage st)) →
         ∃ n, n ≤ counter (storage st) ∧ i = "url_" +:+ pretty n.

(** ** Notions for the repeated demonstration *)

(** The URLs stored, in listing order. *)
Definition url_list (st : State) : list string :=
  originalUrl <$> Object_values (urls (storage st)).

(** From [st] to [st'] no code, no URL and no write onto an inherited object
    was lost. *)
Definition grows (st st' : State) : Prop :=
  url_list st ⊆ url_list st'
  ∧ (urls (storage st)).*1 ⊆ (urls (storage st')).*1
  ∧ (inherited st).*1 ⊆ (inherited st').*1.

(** [shortenUrl u customCode] has nothing left to do in [st]: the URL is
    rejected, or stored already, or the custom code is taken. *)
Definition settled (URL_new : string → bool) (u : string)
    (customCode : option string) (st : State) : Prop :=
  isValidUrl URL_new u = false
  ∨ u ∈ url_list st
  ∨ ∃ c, customCode = Some c ∧ c ≠ EmptyString ∧ truthy (get c st) = true.

(** Case analysis on every decision in sight. *)
Ltac decide_cases := repeat (case_decide; simplify_eq/=).

(** A branch of the command line that hands back the state it was given. *)
Ltac same_state := intros [= _ <-]; split; [congruence | done].

(** ** Concrete inputs for the examples *)

Definition example_rnd (n : nat) : nat := (n * 7 + 3)%nat.

Definition example_record : ShortenedUrl :=
  {| id := "url_1"; originalUrl := "https://example.com"; shortCode := "mycode";
     createdAt := 1000; clickCount := 2; lastAccessed := Some 1500 |}.

Definition other_record : ShortenedUrl :=
  {| id := "url_2"; originalUrl := "https://nodejs.org/en/docs/"; shortCode := "node";
     createdAt := 2000; clickCount := 7; lastAccessed := Some 2700 |}.

(** A registry of two records, as two calls of [shortenUrl] with custom
    codes and some tracked expansions leave it (see [example_state_reached]). *)
Definition example_state : State :=
  {| storage := {| urls := [("mycode"%string, example_record); ("node"%string, other_record)];
                   counter := 2 |};
     saved := [];
     inherited := [] |}.



(** A registry with one record clicked 2^53 times and one clicked once. *)
Definition clicks_at_limit : State :=
  {| storage :=
       {| urls :=
            [ ("mycode"%string,
               {| id := "url_1"; originalUrl := "https://example.com";
                  shortCode := "mycode"; createdAt := 1000;
                  clickCount := 9007199254740992; lastAccessed := Some 1500 |});
              ("node"%string,
               {| id := "url_2"; originalUrl := "https://nodejs.org/en/docs/";
                  shortCode := "node"; createdAt := 2000;
                  clickCount := 1; lastAccessed := Some 2700 |}) ];
          counter := 2 |};
     saved := [];
     inherited := [] |}.

(** The random source and the calendar of a command line run, by method
    call. *)
Definition example_rnds (i n : nat) : nat := (n * 7 + 3 + i * 11)%nat.

Definition example_now (i : nat) : Date := N.of_nat (100 + i).

(** What the demonstration prints on an empty registry, and the registry
    it leaves. *)
Definition example_demo : option (list Line * State) :=
  demonstrateUrlShortener example_URL 2 example_rnds example_now initial.

Definition example_demo_state : State := from_option snd initial example_demo.

(** * Properties *)

(** ** Numbers *)

Lemma to_double_small n : n < 2 ^ 53 → to_double n = n.
Proof.
  intros Hn. unfold to_double.
  destruct (N.eq_dec n 0) as [->|Hn0]; [done|].
  assert (N.log2 n < 53) as Hlog by (apply N.log2_lt_pow2; lia).
  apply N.ltb_lt in Hlog. by rewrite Hlog.
Qed.

(** Up to 2^53 every natural is a double. *)
Lemma to_double_safe n : n ≤ 2 ^ 53 → to_double n = n.
Proof.
  intros Hn. destruct (N.eq_dec n (2 ^ 53)) as [->|Hne].
  - by vm_compute.
  - apply to_double_small. lia.
Qed.

Lemma js_add_safe a b : a + b ≤ 2 ^ 53 → js_add a b = a + b.
Proof. apply to_double_safe. Qed.

Lemma js_increment_safe n : n ≤ MAX_SAFE_INTEGER → js_increment n = n + 1.
Proof.
  unfold MAX_SAFE_INTEGER, js_increment. intros Hn.
  rewrite js_add_safe; lia.
Qed.

Lemma js_increment_ge n : n ≤ js_increment n.
Proof. unfold js_increment. lia. Qed.

Lemma js_increment_pos n : 1 ≤ js_increment n.
Proof.
  destruct (N.eq_dec n 0) as [->|Hn]; [by vm_compute|].
  pose proof (js_increment_ge n). lia.
Qed.

(** An increment that ends in the safe range was exact. *)
Lemma js_increment_safe_inv n :
  js_increment n ≤ MAX_SAFE_INTEGER → js_increment n = n + 1.
Proof.
  intros Hn. apply js_increment_safe. pose proof (js_increment_ge n). lia.
Qed.

(** A significand of 53 bits times a power of two is a double. *)
Lemma to_double_multiple d q :
  2 ^ 52 ≤ q → q ≤ 2 ^ 53 → to_double (2 ^ d * q) = 2 ^ d * q.
Proof.
  intros Hlo Hhi.
  destruct (N.eq_dec d 0) as [->|Hd].
  { rewrite N.pow_0_r, N.mul_1_l. by apply to_double_safe. }
  destruct (N.eq_dec q (2 ^ 53)) as [->|Hq].
  - unfold to_double.
    assert (N.log2 (2 ^ d * 2 ^ 53) = d + 53) as ->.
    { rewrite <-N.pow_add_r. apply N.log2_pow2. lia. }
    assert ((d + 53 <? 53) = false) as -> by (apply N.ltb_ge; lia).
    replace (d + 53 - 52) with (d + 1) by lia.
    replace (2 ^ d * 2 ^ 53) with (2 ^ 52 * 2 ^ (d + 1))
      by (rewrite <-!N.pow_add_r; f_equal; lia).
    assert (2 ^ (d + 1) ≠ 0) as Hnz by (apply N.pow_nonzero; lia).
    rewrite N.div_mul, N.Div0.mod_mul by done.
    assert ((2 ^ (d + 1) <? 2 * 0) = false) as -> by (apply N.ltb_ge; lia).
    assert ((2 * 0 =? 2 ^ (d + 1)) = false) as -> by (apply N.eqb_neq; lia).
    simpl. lia.
  - unfold to_double.
    assert (N.log2 (2 ^ d * q) = d + 52) as ->.
    { apply N.log2_unique; [lia|]. rewrite N.pow_succ_r', !N.pow_add_r.
      assert (0 < 2 ^ d) by (apply N.neq_0_lt_0, N.pow_nonzero; lia).
      split; nia. }
    assert ((d + 52 <? 53) = false) as -> by (apply N.ltb_ge; lia).
    replace (d + 52 - 52) with d by lia.
    assert (2 ^ d ≠ 0) as Hnz by (apply N.pow_nonzero; lia).
    rewrite (N.mul_comm (2 ^ d) q), N.div_mul, N.Div0.mod_mul by done.
    assert ((2 ^ d <? 2 * 0) = false) as -> by (apply N.ltb_ge; lia).
    assert ((2 * 0 =? 2 ^ d) = false) as -> by (apply N.eqb_neq; lia).
    simpl. lia.
Qed.

(** Above 2^53 the rounding yields such a multiple. *)
Lemma to_double_shape n :
  53 ≤ N.log2 n →
  ∃ d q, 2 ^ 52 ≤ q ∧ q ≤ 2 ^ 53 ∧ to_double n = 2 ^ d * q.
Proof.
  intros He. unfold to_double.
  assert ((N.log2 n <? 53) = false) as -> by (apply N.ltb_ge; lia).
  set (d := N.log2 n - 52).
  assert (0 < n) as Hpos.
  { destruct (N.eq_dec n 0) as [->|]; [simpl in He; lia|lia]. }
  destruct (N.log2_spec n Hpos) as [Hlo Hhi].
  replace (N.log2 n) with (52 + d) in Hlo, Hhi by lia.
  rewrite N.pow_succ_r', N.pow_add_r in Hhi. rewrite N.pow_add_r in Hlo.
  assert (0 < 2 ^ d) as Hd by (apply N.neq_0_lt_0, N.pow_nonzero; lia).
  assert (2 ^ 52 ≤ n `div` 2 ^ d) as Hq1.
  { apply N.div_le_lower_bound; lia. }
  assert (n `div` 2 ^ d < 2 ^ 53) as Hq2.
  { apply N.Div0.div_lt_upper_bound. change (2 ^ 53) with (2 * 2 ^ 52). lia. }
  exists d. destruct (_ || _).
  - exists (n `div` 2 ^ d + 1). split; [lia|]. split; [lia|done].
  - exists (n `div` 2 ^ d). split; [lia|]. split; [lia|done].
Qed.

(** Rounding a double changes nothing. *)
Lemma to_double_idemp n : to_double (to_double n) = to_double n.
Proof.
  destruct (N.lt_ge_cases (N.log2 n) 53) as [He|He].
  - unfold to_double at 2. apply N.ltb_lt in He. by rewrite He.
  - destruct (to_double_shape n He) as (d & q & Hlo & Hhi & ->).
    by apply to_double_multiple.
Qed.

(** The successor of a double never rounds to below it. *)
Lemma to_double_succ_ge n : to_double n = n → n ≤ to_double (n + 1).
Proof.
  intros Hn. destruct (N.le_gt_cases (n + 1) (2 ^ 53)) as [Hle|Hgt].
  { rewrite to_double_safe by done. lia. }
  assert (53 ≤ N.log2 n) as He by (apply N.log2_le_pow2; lia).
  destruct (to_double_shape n He) as (d0 & q0 & Hlo0 & Hhi0 & Hshape).
  rewrite Hn in Hshape.
  assert (∃ d q, 2 ^ 52 ≤ q ∧ q < 2 ^ 53 ∧ n = 2 ^ d * q) as (d & q & Hlo & Hhi & ->).
  { destruct (N.eq_dec q0 (2 ^ 53)) as [->|Hq].
    - exists (d0 + 1), (2 ^ 52). split; [lia|]. split; [lia|].
      rewrite Hshape, <-!N.pow_add_r. f_equal. lia.
    - exists d0, q0. split; [done|]. split; [lia|done]. }
  clear Hn He Hshape Hlo0 Hhi0 d0 q0.
  assert (0 < 2 ^ d) as Hd by (apply N.neq_0_lt_0, N.pow_nonzero; lia).
  assert (d ≠ 0) as Hd0.
  { intros ->. rewrite N.pow_0_r in Hgt. lia. }
  assert (2 ≤ 2 ^ d) as Hd2.
  { replace d with (1 + (d - 1)) by lia. rewrite N.pow_add_r.
    assert (0 < 2 ^ (d - 1)) by (apply N.neq_0_lt_0, N.pow_nonzero; lia). lia. }
  unfold to_double.
  assert (N.log2 (2 ^ d * q + 1) = d + 52) as ->.
  { apply N.log2_unique; [lia|]. rewrite N.pow_succ_r', !N.pow_add_r. split; nia. }
  assert ((d + 52 <? 53) = false) as -> by (apply N.ltb_ge; lia).
  replace (d + 52 - 52) with d by lia.
  assert (q ≤ (2 ^ d * q + 1) `div` 2 ^ d) as HQ.
  { apply N.div_le_lower_bound; lia. }
  destruct (_ || _); nia.
Qed.

(** On a double, the increment is the rounded sum. *)
Lemma js_increment_double n : to_double n = n → js_increment n = js_add n 1.
Proof.
  intros Hn%to_double_succ_ge. unfold js_increment, js_add in *. lia.
Qed.

(** The rounding at and just above 2^53: the odd naturals are no doubles,
    and a tie goes to the even significand. *)
Example to_double_beyond_safe :
  js_increment MAX_SAFE_INTEGER = 9007199254740992
  ∧ js_increment 9007199254740992 = 9007199254740992
  ∧ js_increment 9007199254740994 = 9007199254740996
  ∧ to_double 9007199254740993 = 9007199254740992
  ∧ to_double 9007199254740995 = 9007199254740996
  ∧ js_add 9007199254740992 3 = 9007199254740996.
Proof. repeat split; by vm_compute. Qed.

(** ** Own properties of [storage.urls] *)

Lemma own_Some_elem k r (l : Urls) : own k l = Some r → (k, r) ∈ l.
Proof.
  induction l as [|[k' v] l IH]; simpl; [done|].
  case_decide as Hk.
  - intros [= ->]. subst. left.
  - intros H. right. auto.
Qed.

Lemma own_None_keys k (l : Urls) : own k l = None ↔ k ∉ l.*1.
Proof.
  induction l as [|[k' v] l IH]; simpl.
  - split; [intros _; apply not_elem_of_nil | done].
  - rewrite not_elem_of_cons. destruct (decide (k' = k)) as [->|Hk].
    + split; [done | intros [? _]; done].
    + rewrite IH. split; [intros ?; split; [congruence | done] | by intros [_ ?]].
Qed.

Lemma elem_own k r (l : Urls) : NoDup l.*1 → (k, r) ∈ l → own k l = Some r.
Proof.
  induction l as [|[k' v] l IH]; simpl.
  - intros _ H. by apply elem_of_nil in H.
  - rewrite NoDup_cons, elem_of_cons. intros [Hk' Hnd] [Heq|Hin].
    + injection Heq as -> ->. by rewrite decide_True.
    + rewrite decide_False; [auto|].
      intros ->. apply Hk'. apply list_elem_of_fmap. by exists (k, r).
Qed.

Lemma own_replace_own k v k' (l : Urls) :
  own k' (replace_own k v l) =
    if decide (k = k') then (λ _, v) <$> own k l else own k' l.
Proof.
  induction l as [|[k0 v0] l IH]; simpl; [by case_decide|].
  destruct (decide (k0 = k)) as [->|Hk0], (decide (k = k')) as [->|Hk];
    simpl; rewrite ?decide_True, ?decide_False by congruence;
    rewrite ?IH; done.
Qed.

Lemma keys_replace_own k v (l : Urls) : (replace_own k v l).*1 = l.*1.
Proof.
  induction l as [|[k0 v0] l IH]; csimpl; [done|].
  case_decide; csimpl; [done | by rewrite IH].
Qed.

Lemma elem_replace_own k v k' r' (l : Urls) :
  (k', r') ∈ replace_own k v l → (k' = k ∧ r' = v) ∨ (k', r') ∈ l.
Proof.
  induction l as [|[k0 v0] l IH]; simpl; [by right|].
  case_decide as Hk; subst.
  - intros [[= -> ->]|?]%elem_of_cons; [by left | right; by right].
  - intros [[= -> ->]|?]%elem_of_cons; [right; left|].
    destruct IH as [?|?]; [done|by left|right; by right].
Qed.

Lemma insert_index_perm i k v (l : Urls) : insert_index i k v l ≡ₚ (k, v) :: l.
Proof.
  induction l as [|[k0 v0] l IH]; simpl; [done|].
  destruct (array_index k0) as [j|]; [|done].
  destruct (j <? i); [|done].
  rewrite IH. apply Permutation_swap.
Qed.

Lemma own_insert_index i k v k' (l : Urls) :
  own k l = None →
  own k' (insert_index i k v l) = if decide (k = k') then Some v else own k' l.
Proof.
  induction l as [|[k0 v0] l IH]; simpl; [done|].
  destruct (decide (k0 = k)) as [->|Hk0]; [done|]. intros Hk.
  destruct (array_index k0) as [j|]; [|done].
  destruct (j <? i); [|done]. simpl.
  rewrite IH by done. by decide_cases.
Qed.

Lemma own_app_fresh k v k' (l : Urls) :
  own k l = None →
  own k' (l ++ [(k, v)]) = if decide (k = k') then Some v else own k' l.
Proof.
  induction l as [|[k0 v0] l IH]; simpl; [done|].
  destruct (decide (k0 = k)) as [->|Hk0]; [done|]. intros Hk.
  rewrite IH by done. by decide_cases.
Qed.

(** Reading back after [obj[k] = v]. *)
Lemma own_js_set k v k' (l : Urls) :
  own k' (js_set k v l) = if decide (k = k') then Some v else own k' l.
Proof.
  unfold js_set. destruct (own k l) as [r|] eqn:Hk.
  - rewrite own_replace_own, Hk. by case_decide.
  - destruct (array_index k); [by apply own_insert_index | by apply own_app_fresh].
Qed.

(** A new key adds one entry and disturbs no other. *)
Lemma js_set_fresh_perm k v (l : Urls) :
  own k l = None → js_set k v l ≡ₚ (k, v) :: l.
Proof.
  unfold js_set. intros ->. destruct (array_index k).
  - apply insert_index_perm.
  - by rewrite Permutation_app_comm.
Qed.

Lemma own_js_delete k k' (l : Urls) :
  own k' (js_delete k l) = if decide (k = k') then None else own k' l.
Proof.
  induction l as [|[k0 v0] l IH]; simpl; [by case_decide|].
  destruct (decide (k0 = k)) as [->|Hne]; simpl; rewrite IH; by decide_cases.
Qed.

Lemma elem_js_delete k k' r (l : Urls) :
  (k', r) ∈ js_delete k l → (k', r) ∈ l ∧ k' ≠ k.
Proof.
  induction l as [|[k0 v0] l IH]; simpl; [by intros ?%elem_of_nil|].
  destruct (decide (k0 = k)) as [->|Hne]; rewrite ?elem_of_cons.
  - intros [Hin Hk]%IH. split; [by right | done].
  - intros [[= -> ->]|[Hin Hk]%IH]; [split; [by left | done] | split; [by right | done]].
Qed.

Lemma keys_js_delete k (l : Urls) : NoDup l.*1 → NoDup (js_delete k l).*1.
Proof.
  induction l as [|[k0 v0] l IH]; csimpl; [done|].
  rewrite NoDup_cons. intros [Hk0 Hnd].
  destruct (decide (k0 = k)) as [->|Hne]; csimpl; [auto|].
  rewrite NoDup_cons. split; [|auto].
  rewrite list_elem_of_fmap. intros [[k1 r1] [-> Hin]]. simpl in *.
  apply elem_js_delete in Hin as [Hin _]. apply Hk0.
  apply list_elem_of_fmap. by exists (k1, r1).
Qed.

(** ** Generated codes *)

Lemma length_app_string (s t : string) :
  String.length (s +:+ t) = (String.length s + String.length t)%nat.
Proof. induction s as [|c s IH]; simpl; [done | by rewrite IH]. Qed.

Lemma string_forall_app P (s t : string) :
  string_forall P (s +:+ t) = string_forall P s && string_forall P t.
Proof.
  induction s as [|c s IH]; simpl; [done|]. by rewrite IH, andb_assoc.
Qed.

(** Every draw picks one character of [chars], and [chars] holds letters and
    digits only. *)
Lemma charAt_chars raw :
  ∃ c, charAt chars (randomInt 0 (String.length chars) raw) = String c EmptyString
       ∧ occurs c chars = true ∧ alphanumeric c = true.
Proof.
  unfold randomInt.
  assert (raw `mod` 62 < 62)%nat as Hlt by (apply Nat.mod_upper_bound; lia).
  change (0 + raw `mod` (String.length chars - 0))%nat with (raw `mod` 62)%nat.
  generalize dependent (raw `mod` 62)%nat. intros i Hi.
  assert (forallb (λ i, match String.get i chars with
                        | Some c => occurs c chars && alphanumeric c
                        | None => false
                        end) (seq 0 62) = true) as Hall by (by vm_compute).
  rewrite forallb_forall in Hall. specialize (Hall i).
  unfold charAt. destruct (String.get i chars) as [c|].
  - destruct (andb_prop _ _ (Hall ltac:(apply in_seq; lia))). eauto.
  - discriminate Hall. apply in_seq. lia.
Qed.

Lemma draw_spec rnd n : ∀ pos result,
  String.length (draw rnd pos n result) = (String.length result + n)%nat
  ∧ string_forall alphanumeric (draw rnd pos n result)
    = string_forall alphanumeric result
  ∧ string_forall (λ c, occurs c chars) (draw rnd pos n result)
    = string_forall (λ c, occurs c chars) result.
Proof.
  induction n as [|n IH]; intros pos result; cbn [draw].
  - split; [lia | done].
  - destruct (charAt_chars (rnd pos)) as (c & -> & Hocc & Hc).
    destruct (IH (S pos) (result +:+ String c EmptyString)) as (-> & -> & ->).
    rewrite length_app_string, !string_forall_app.
    cbn [string_forall String.length].
    rewrite Hc, Hocc, !andb_true_r. split; [lia | done].
Qed.

Lemma attempt_spec rnd k :
  String.length (attempt rnd k) = 6%nat
  ∧ string_forall alphanumeric (attempt rnd k) = true
  ∧ string_forall (λ c, occurs c chars) (attempt rnd k) = true.
Proof. unfold attempt. by destruct (draw_spec rnd 6 (6 * k) EmptyString) as (-> & -> & ->). Qed.

(** No inherited name has six characters, so a six-character key is either
    an own property or undefined. *)
Lemma get_six code st :
  String.length code = 6%nat →
  get code st = match own code (urls (storage st)) with
                | Some r => Own r
                | None => Undefined
                end.
Proof.
  intros Hlen. unfold get. destruct (own code _); [done|].
  rewrite bool_decide_eq_false_2.
  - rewrite (bool_decide_eq_false_2 (code = _)); [by rewrite andb_false_r|].
    intros ->. done.
  - unfold prototype_names. rewrite !elem_of_cons, elem_of_nil.
    intros H. repeat (destruct H as [->|H]; [done|]). done.
Qed.

(** What [generateShortCode] returns is the first free attempt. *)
Lemma generateShortCode_spec fuel rnd st : ∀ tries code,
  generateShortCode fuel rnd tries st = Some code →
  ∃ k, code = attempt rnd k ∧ (tries ≤ k < tries + fuel)%nat
       ∧ truthy (get code st) = false
       ∧ ∀ j, (tries ≤ j < k)%nat → truthy (get (attempt rnd j) st) = true.
Proof.
  induction fuel as [|fuel IH]; intros tries code; simpl; [done|].
  destruct (truthy (get (attempt rnd tries) st)) eqn:Hget.
  - intros (k & -> & Hk & Hfree & Hbusy)%IH. exists k.
    repeat split; [lia | lia | done |].
    intros j Hj. destruct (decide (j = tries)) as [->|]; [done|].
    apply Hbusy. lia.
  - intros [= <-]. exists tries. repeat split; [lia | lia | done |].
    intros j Hj. lia.
Qed.

(** It returns as soon as the draws contain a free code within the fuel. *)
Lemma generateShortCode_total fuel rnd st : ∀ tries,
  (∃ k, (tries ≤ k < tries + fuel)%nat ∧ truthy (get (attempt rnd k) st) = false) →
  ∃ code, generateShortCode fuel rnd tries st = Some code.
Proof.
  induction fuel as [|fuel IH]; intros tries (k & Hk & Hfree); simpl; [lia|].
  destruct (truthy (get (attempt rnd tries) st)) eqn:Hget; [|eauto].
  apply IH. exists k. split; [|done].
  destruct (decide (k = tries)) as [->|]; [congruence | lia].
Qed.

(** ** The search for an existing record *)

Lemma findExisting_Some u r st :
  findExisting u st = Some r →
  originalUrl r = u ∧ ∃ k, (k, r) ∈ urls (storage st).
Proof.
  unfold findExisting, Object_values. intros [Hin Hu]%find_some.
  apply bool_decide_eq_true in Hu. split; [done|].
  apply list_elem_of_In, list_elem_of_fmap in Hin as [[k r'] [-> Hin]]. eauto.
Qed.

Lemma findExisting_None u st k r :
  findExisting u st = None → (k, r) ∈ urls (storage st) → originalUrl r ≠ u.
Proof.
  unfold findExisting, Object_values. intros Hnone Hin Hu.
  assert (bool_decide (originalUrl r = u) = false) as Hf.
  { apply (find_none _ _ Hnone). apply list_elem_of_In, list_elem_of_fmap.
    by exists (k, r). }
  by apply bool_decide_eq_false in Hf.
Qed.

Section Properties.

Variable URL_new : string → bool.

(** Under the invariant the search returns the one record of the URL. *)
Lemma findExisting_stored u k r st :
  registry_inv URL_new st → (k, r) ∈ urls (storage st) → originalUrl r = u →
  findExisting u st = Some r.
Proof.
  intros Hinv Hin Hu. destruct (findExisting u st) as [r'|] eqn:Hfind.
  - apply findExisting_Some in Hfind as [Hu' [k' Hin']].
    assert (k' = k) as -> by (eapply (inv_unique _ _ Hinv); eauto; congruence).
    pose proof (elem_own _ _ _ (inv_keys _ _ Hinv) Hin).
    pose proof (elem_own _ _ _ (inv_keys _ _ Hinv) Hin'). congruence.
  - by destruct (findExisting_None _ _ _ _ Hfind Hin).
Qed.

(** The two ways [shortenUrl] returns a record. *)
Lemma shortenUrl_Returned fuel rnd now u cc st r st' :
  shortenUrl URL_new fuel rnd now u cc st = Returned r st' →
  isValidUrl URL_new u = true ∧
  ((findExisting u st = Some r ∧ st' = st) ∨
   (findExisting u st = None ∧
    ∃ code, js_or cc (generateShortCode fuel rnd 0 st) = Some code
      ∧ truthy (get code st) = false
      ∧ r = {| id := "url_" +:+ pretty (js_increment (counter (storage st)));
               originalUrl := u; shortCode := code; createdAt := now;
               clickCount := 0; lastAccessed := None |}
      ∧ st' = saveStorage (with_storage
                {| urls := js_set code r (urls (storage st));
                   counter := js_increment (counter (storage st)) |} st))).
Proof.
  unfold shortenUrl. destruct (isValidUrl URL_new u); simpl; [|done].
  destruct (findExisting u st) as [e|].
  - intros [= -> ->]. split; [done|]. by left.
  - destruct (js_or cc _) as [code|]; [|done].
    destruct (truthy (get code st)) eqn:Hget; [done|].
    intros [= <- <-]. split; [done|]. right. split; [done|].
    exists code. done.
Qed.

(** A thrown error leaves the state as it was. *)
Lemma shortenUrl_Thrown fuel rnd now u cc st e st' :
  shortenUrl URL_new fuel rnd now u cc st = Thrown e st' → st' = st.
Proof.
  unfold shortenUrl. destruct (isValidUrl URL_new u); simpl; [|by intros [= _ ->]].
  destruct (findExisting u st); [done|].
  destruct (js_or cc _) as [code|]; [|done].
  destruct (truthy (get code st)); [by intros [= _ ->] | done].
Qed.

(** A code chosen by [customCode || generateShortCode()] is never empty. *)
Lemma js_or_nonempty cc fuel rnd st code :
  js_or cc (generateShortCode fuel rnd 0 st) = Some code → code ≠ EmptyString.
Proof.
  unfold js_or. destruct cc as [c|].
  - case_bool_decide; [|by intros [= ->]].
    intros (k & -> & _)%generateShortCode_spec Hk.
    pose proof (attempt_spec rnd k) as [Hlen _]. by rewrite Hk in Hlen.
  - intros (k & -> & _)%generateShortCode_spec Hk.
    pose proof (attempt_spec rnd k) as [Hlen _]. by rewrite Hk in Hlen.
Qed.

Lemma truthy_false_own k st :
  truthy (get k st) = false → own k (urls (storage st)) = None.
Proof. unfold get. by destruct (own k _). Qed.

(** ** The invariant holds in every reachable state *)

Lemma initial_inv : registry_inv URL_new initial.
Proof.
  split; simpl; [constructor | intros; exfalso; eapply elem_of_nil; eassumption ..].
Qed.

(** Neither a write to the file nor one onto an inherited object touches
    what the invariant speaks of. *)
Lemma inv_same_storage st st' :
  storage st' = storage st → registry_inv URL_new st → registry_inv URL_new st'.
Proof. intros Hs [? ? ? ? ? ?]. split; rewrite Hs; done. Qed.

(** Construction of a record under a free, non-empty code. *)
Lemma inv_construct st code u now :
  registry_inv URL_new st →
  own code (urls (storage st)) = None → code ≠ EmptyString →
  isValidUrl URL_new u = true → findExisting u st = None →
  let r := {| id := "url_" +:+ pretty (js_increment (counter (storage st)));
              originalUrl := u; shortCode := code; createdAt := now;
              clickCount := 0; lastAccessed := None |} in
  registry_inv URL_new
    (saveStorage (with_storage
       {| urls := js_set code r (urls (storage st));
          counter := js_increment (counter (storage st)) |} st)).
Proof.
  intros Hinv Hfree Hne Hvalid Hnew r.
  pose proof (js_set_fresh_perm code r _ Hfree) as Hperm.
  assert (∀ k x, (k, x) ∈ js_set code r (urls (storage st)) →
                 (k = code ∧ x = r) ∨ (k, x) ∈ urls (storage st)) as Hel.
  { intros k x. rewrite Hperm, elem_of_cons. intros [[= -> ->]|?]; auto. }
  split; simpl.
  - rewrite Hperm. csimpl. apply NoDup_cons. split.
    + by apply own_None_keys.
    + apply (inv_keys _ _ Hinv).
  - intros k x [[-> ->]|Hin]%Hel; [done|]. by apply (inv_code _ _ Hinv).
  - intros k x [[-> ->]|Hin]%Hel; [done|]. by apply (inv_nonempty _ _ Hinv k x).
  - intros k x [[-> ->]|Hin]%Hel; [done|]. by apply (inv_valid _ _ Hinv k x).
  - intros k1 x1 k2 x2 [[-> ->]|Hin1]%Hel [[-> ->]|Hin2]%Hel Hu; simpl in *.
    + done.
    + by destruct (findExisting_None _ _ _ _ Hnew Hin2).
    + by destruct (findExisting_None _ _ _ _ Hnew Hin1).
    + by apply (inv_unique _ _ Hinv k1 x1 k2 x2).
  - pose proof (js_increment_ge (counter (storage st))).
    pose proof (js_increment_pos (counter (storage st))).
    intros k x [[-> ->]|Hin]%Hel.
    + exists (js_increment (counter (storage st))). split; [lia|done].
    + destruct (inv_ids _ _ Hinv k x Hin) as (n & Hn & Hid).
      exists n. split; [lia|done].
Qed.

(** An update of a stored record that keeps its id, URL and code. *)
Lemma inv_update st code r r' :
  registry_inv URL_new st →
  own code (urls (storage st)) = Some r →
  id r' = id r → originalUrl r' = originalUrl r → shortCode r' = shortCode r →
  registry_inv URL_new
    (saveStorage (with_storage
       {| urls := replace_own code r' (urls (storage st));
          counter := counter (storage st) |} st)).
Proof.
  intros Hinv Hr%own_Some_elem Hid Hu Hc.
  assert (∀ k x, (k, x) ∈ replace_own code r' (urls (storage st)) →
                 ∃ x0, (k, x0) ∈ urls (storage st) ∧ id x = id x0
                       ∧ originalUrl x = originalUrl x0
                       ∧ shortCode x = shortCode x0) as Hel.
  { intros k x [[-> ->]|Hin]%elem_replace_own; eauto 6. }
  split; simpl.
  - rewrite keys_replace_own. apply (inv_keys _ _ Hinv).
  - intros k x (x0 & Hin & _ & _ & ->)%Hel. by apply (inv_code _ _ Hinv).
  - intros k x (x0 & Hin & _)%Hel. by apply (inv_nonempty _ _ Hinv k x0).
  - intros k x (x0 & Hin & _ & -> & _)%Hel. by apply (inv_valid _ _ Hinv k x0).
  - intros k1 x1 k2 x2 (y1 & Hin1 & _ & -> & _)%Hel (y2 & Hin2 & _ & -> & _)%Hel.
    by apply (inv_unique _ _ Hinv k1 y1 k2 y2).
  - intros k x (x0 & Hin & -> & _)%Hel. by apply (inv_ids _ _ Hinv k x0).
Qed.

Lemma inv_delete st code :
  registry_inv URL_new st →
  registry_inv URL_new
    (saveStorage (with_storage
       {| urls := js_delete code (urls (storage st));
          counter := counter (storage st) |} st)).
Proof.
  intros Hinv. split; simpl.
  - apply keys_js_delete, (inv_keys _ _ Hinv).
  - intros k x [Hin _]%elem_js_delete. by apply (inv_code _ _ Hinv).
  - intros k x [Hin _]%elem_js_delete. by apply (inv_nonempty _ _ Hinv k x).
  - intros k x [Hin _]%elem_js_delete. by apply (inv_valid _ _ Hinv k x).
  - intros k1 x1 k2 x2 [Hin1 _]%elem_js_delete [Hin2 _]%elem_js_delete.
    by apply (inv_unique _ _ Hinv k1 x1 k2 x2).
  - intros k x [Hin _]%elem_js_delete. by apply (inv_ids _ _ Hinv k x).
Qed.

Lemma shortenUrl_inv fuel rnd now u cc st r st' :
  registry_inv URL_new st →
  shortenUrl URL_new fuel rnd now u cc st = Returned r st' →
  registry_inv URL_new st'.
Proof.
  intros Hinv [Hvalid [[_ ->]|(Hnew & code & Hcode & Hfree & -> & ->)]]%shortenUrl_Returned;
    [done|].
  apply inv_construct; eauto using truthy_false_own, js_or_nonempty.
Qed.

Lemma expandUrl_inv code track now st :
  registry_inv URL_new st → registry_inv URL_new (expandUrl code track now st).2.
Proof.
  intros Hinv. unfold expandUrl, get.
  destruct (own code (urls (storage st))) as [r|] eqn:Hown.
  - destruct track; simpl; [|done]. by apply inv_update with (r := r).
  - repeat case_match; simpl; try done; by apply (inv_same_storage st).
Qed.

Lemma deleteUrl_inv code st :
  registry_inv URL_new st → registry_inv URL_new (deleteUrl code st).2.
Proof.
  intros Hinv. unfold deleteUrl. destruct (truthy _); simpl; [|done].
  by apply inv_delete.
Qed.

Lemma step_inv c st st' :
  registry_inv URL_new st → step URL_new c st = Some st' → registry_inv URL_new st'.
Proof.
  intros Hinv. destruct c as [fuel rnd now u cc|code track now|code| |code]; simpl.
  - destruct (shortenUrl _ _ _ _ _ _ _) as [r s|e s|] eqn:Hs; intros [= <-].
    + eauto using shortenUrl_inv.
    + by rewrite (shortenUrl_Thrown _ _ _ _ _ _ _ _ Hs).
  - intros [= <-]. by apply expandUrl_inv.
  - by intros [= <-].
  - by intros [= <-].
  - intros [= <-]. by apply deleteUrl_inv.
Qed.

Lemma run_inv cs : ∀ st,
  registry_inv URL_new st → registry_inv URL_new (run URL_new cs st).
Proof.
  induction cs as [|c cs IH]; intros st Hinv; simpl; [done|].
  destruct (step URL_new c st) as [st'|] eqn:Hstep; [|done].
  eauto using step_inv.
Qed.

(** X1. Every state reached from the empty registry satisfies the
    invariant of the data model. *)
Lemma reachable_inv st : reachable URL_new st → registry_inv URL_new st.
Proof. intros [cs ->]. apply run_inv, initial_inv. Qed.

End Properties.

(** ** Sorting by clicks *)

Lemma sort_insert_perm {A} (cmp : A → A → Z) a l : sort_insert cmp a l ≡ₚ a :: l.
Proof.
  induction l as [|b l IH]; simpl; [done|].
  destruct (cmp b a <? 0)%Z; [|done]. rewrite IH. apply Permutation_swap.
Qed.

Lemma js_sort_perm {A} (cmp : A → A → Z) l : js_sort cmp l ≡ₚ l.
Proof.
  induction l as [|a l IH]; simpl; [done|].
  by rewrite sort_insert_perm, IH.
Qed.

Lemma more_clicks_trans : Transitive more_clicks.
Proof. unfold more_clicks. intros a b c; lia. Qed.

Lemma sort_insert_sorted a l :
  Sorted more_clicks l → Sorted more_clicks (sort_insert by_clicks a l).
Proof.
  induction l as [|b l IH]; simpl; [by repeat constructor|].
  intros Hs. apply Sorted_inv in Hs as [Hs Hhd].
  unfold by_clicks at 1. destruct (Z.ltb_spec (Z.of_N (clickCount a) - Z.of_N (clickCount b)) 0).
  - constructor; [auto|]. destruct l as [|c l]; simpl.
    + constructor. unfold more_clicks. lia.
    + destruct (by_clicks c a <? 0)%Z; constructor.
      * by apply HdRel_inv in Hhd.
      * unfold more_clicks. lia.
  - constructor; [by constructor|]. constructor. unfold more_clicks. lia.
Qed.

Lemma js_sort_sorted l : StronglySorted more_clicks (js_sort by_clicks l).
Proof.
  apply (@Sorted_StronglySorted _ _ more_clicks_trans).
  induction l as [|a l IH]; simpl; [constructor|]. by apply sort_insert_sorted.
Qed.

(** While the sum stays within the exact range, [reduce] computes it. *)
Lemma fold_left_clicks l acc :
  acc + sum_clicks l ≤ 2 ^ 53 →
  fold_left (λ sum url, js_add sum (clickCount url)) l acc = acc + sum_clicks l.
Proof.
  revert acc. induction l as [|r l IH]; intros acc; simpl; [lia|].
  intros Hle. rewrite js_add_safe by lia. rewrite IH; lia.
Qed.

Lemma totalClicks_safe st :
  sum_clicks (Object_values (urls (storage st))) ≤ MAX_SAFE_INTEGER →
  totalClicks (getTotals st) = sum_clicks (Object_values (urls (storage st))).
Proof.
  unfold MAX_SAFE_INTEGER. intros Hle. unfold getTotals. simpl.
  rewrite fold_left_clicks; lia.
Qed.

(** * The claims *)

Section Claims.

Variable URL_new : string → bool.

(** C1. For every valid URL [u] and every registry state, [shortenUrl u]
    returns a record, and [expandUrl] on that record's short code, called
    right after, returns exactly [u]. The call returns provided the random
    draws contain a free code within the fuel (needed only when a code is
    generated). *)
Theorem shorten_then_expand fuel rnd now u st :
  registry_inv URL_new st →
  isValidUrl URL_new u = true →
  (∃ k, (k < fuel)%nat ∧ truthy (get (attempt rnd k) st) = false) →
  ∃ r st',
    shortenUrl URL_new fuel rnd now u None st = Returned r st'
    ∧ ∀ track now', (expandUrl (shortCode r) track now' st').1 = js_string u.
Proof.
  intros Hinv Hvalid (k & Hk & Hfree).
  unfold shortenUrl. rewrite Hvalid. simpl.
  destruct (findExisting u st) as [e|] eqn:Hfind.
  - exists e, st. split; [done|]. intros track now'.
    apply findExisting_Some in Hfind as [Hu [c Hin]].
    rewrite (inv_code _ _ Hinv c e Hin).
    unfold expandUrl, get. rewrite (elem_own _ _ _ (inv_keys _ _ Hinv) Hin).
    destruct track; simpl; congruence.
  - destruct (generateShortCode_total fuel rnd st 0) as [code Hgen].
    { exists k. split; [lia|done]. }
    rewrite Hgen.
    apply generateShortCode_spec in Hgen as (j & -> & _ & Hfree' & _).
    rewrite Hfree'. eexists _, _. split; [done|]. intros track now'. simpl.
    unfold expandUrl, get. simpl. rewrite own_js_set, decide_True by done.
    by destruct track.
Qed.

(** C2. Once a record with [originalUrl = u] is stored, any further
    [shortenUrl u], with or without a custom code, returns that very record
    (same [shortCode], same [id]) and leaves the whole state as it was: no
    new record, the counter not incremented, the mapping unchanged. *)
Theorem shorten_existing_idempotent fuel rnd now u cc st k r0 :
  registry_inv URL_new st →
  (k, r0) ∈ urls (storage st) → originalUrl r0 = u →
  shortenUrl URL_new fuel rnd now u cc st = Returned r0 st.
Proof.
  intros Hinv Hin Hu. unfold shortenUrl.
  rewrite <- Hu at 1. rewrite (inv_valid _ _ Hinv k r0 Hin). simpl.
  by rewrite (findExisting_stored URL_new u k r0 st).
Qed.

(** C3 (as amended). [shortenUrl] throws [InvalidUrl] exactly when the
    platform's URL parser rejects [originalUrl], that is when
    [new URL(originalUrl)] throws, whether or not the URL names an
    authority; and then the state (mapping and counter) is the one it
    started from. *)
Theorem invalid_url_rejected fuel rnd now u cc st :
  (URL_new u = false →
     shortenUrl URL_new fuel rnd now u cc st = Thrown InvalidUrl st)
  ∧ (∀ st', shortenUrl URL_new fuel rnd now u cc st = Thrown InvalidUrl st' →
            URL_new u = false ∧ st' = st).
Proof.
  unfold shortenUrl, isValidUrl. split.
  - by intros ->.
  - intros st'. destruct (URL_new u); simpl; [|by intros [= ->]].
    destruct (findExisting u st); [done|].
    destruct (js_or cc _) as [code|]; [|done].
    by destruct (truthy (get code st)).
Qed.

(** C4 (as amended). In a registry state holding a record under code [c],
    for every valid URL [v] that equals no stored [originalUrl],
    [shortenUrl v c] throws [CodeAlreadyExists] and leaves the state (mapping
    and counter) as it was. *)
Theorem taken_custom_code_rejected fuel rnd now v c r st :
  registry_inv URL_new st →
  (c, r) ∈ urls (storage st) →
  isValidUrl URL_new v = true →
  (∀ k x, (k, x) ∈ urls (storage st) → originalUrl x ≠ v) →
  shortenUrl URL_new fuel rnd now v (Some c) st = Thrown CodeAlreadyExists st.
Proof.
  intros Hinv Hin Hvalid Hnew. unfold shortenUrl. rewrite Hvalid. simpl.
  destruct (findExisting v st) as [e|] eqn:Hfind.
  { apply findExisting_Some in Hfind as [Hu [k He]]. by destruct (Hnew k e). }
  unfold js_or. rewrite bool_decide_eq_false_2 by apply (inv_nonempty _ _ Hinv c r Hin).
  unfold get. by rewrite (elem_own _ _ _ (inv_keys _ _ Hinv) Hin).
Qed.

(** C10. The search for the URL comes before the check of the custom code:
    when a record with [originalUrl = u] is stored, [shortenUrl u c] returns
    it for every [c], with the state unchanged and the record still under
    its own code, also when [c] is the code of another record (the slot
    [urls[c]] is then truthy, which on a new URL would throw). *)
Theorem duplicate_check_precedes_code_check fuel rnd now u c st k0 r0 :
  registry_inv URL_new st →
  (k0, r0) ∈ urls (storage st) → originalUrl r0 = u →
  shortenUrl URL_new fuel rnd now u (Some c) st = Returned r0 st
  ∧ shortCode r0 = k0
  ∧ own k0 (urls (storage st)) = Some r0
  ∧ ∀ r1, (c, r1) ∈ urls (storage st) → get c st = Own r1.
Proof.
  intros Hinv Hin Hu. split; [|split; [|split]].
  - unfold shortenUrl.
    rewrite <- Hu at 1. rewrite (inv_valid _ _ Hinv k0 r0 Hin). simpl.
    by rewrite (findExisting_stored URL_new u k0 r0 st).
  - by apply (inv_code _ _ Hinv).
  - by apply elem_own; [apply (inv_keys _ _ Hinv)|].
  - intros r1 Hin1. unfold get.
    by rewrite (elem_own _ _ _ (inv_keys _ _ Hinv) Hin1).
Qed.

(** C5. A generated code has exactly six characters, each one of [chars],
    that is a letter or a digit ([chars] has 62 characters), and it is not
    a key of the mapping when it is returned and inserted. So a call without
    custom code never throws [CodeAlreadyExists]: drawn codes that are taken
    are skipped, and the retry ends as soon as a free code is drawn. *)
Theorem generated_code_shape fuel rnd st :
  String.length chars = 62%nat
  ∧ (∀ code, generateShortCode fuel rnd 0 st = Some code →
       String.length code = 6%nat
       ∧ string_forall (λ c, occurs c chars) code = true
       ∧ string_forall alphanumeric code = true
       ∧ own code (urls (storage st)) = None
       ∧ get code st = Undefined)
  ∧ (∀ now u st',
       shortenUrl URL_new fuel rnd now u None st ≠ Thrown CodeAlreadyExists st')
  ∧ (∀ now u r st',
       shortenUrl URL_new fuel rnd now u None st = Returned r st' →
       findExisting u st = None →
       generateShortCode fuel rnd 0 st = Some (shortCode r)
       ∧ own (shortCode r) (urls (storage st')) = Some r)
  ∧ ((∃ k, (k < fuel)%nat ∧ truthy (get (attempt rnd k) st) = false) →
     ∃ code, generateShortCode fuel rnd 0 st = Some code).
Proof.
  assert (∀ code, generateShortCode fuel rnd 0 st = Some code →
            String.length code = 6%nat ∧ get code st = Undefined
            ∧ own code (urls (storage st)) = None) as Hgen.
  { intros code (k & -> & _ & Hfree & _)%generateShortCode_spec.
    destruct (attempt_spec rnd k) as (Hlen & _). split; [done|].
    split; [|by apply truthy_false_own].
    rewrite get_six in * by done. by destruct (own _ _). }
  split; [done|]. split; [|split; [|split]].
  - intros code Hcode. destruct (Hgen code Hcode) as (Hlen & Hget & Hown).
    apply generateShortCode_spec in Hcode as (k & -> & _).
    destruct (attempt_spec rnd k) as (_ & Halnum & Hocc). done.
  - intros now u st'. unfold shortenUrl.
    destruct (isValidUrl URL_new u); simpl; [|done].
    destruct (findExisting u st); [done|]. simpl.
    destruct (generateShortCode fuel rnd 0 st) as [code|]; [|done].
    destruct (Hgen code eq_refl) as (_ & -> & _). done.
  - intros now u r st' Hret Hnew.
    apply shortenUrl_Returned in Hret as [_ [[? _]|(_ & code & Hcode & _ & -> & ->)]];
      [congruence|].
    simpl in *. split; [done|]. by rewrite own_js_set, decide_True.
  - intros (k & Hk & Hfree). apply generateShortCode_total.
    exists k. split; [lia|done].
Qed.

(** X2. A tracked expansion of a stored code returns its URL, adds one click
    (as long as the count has not passed [Number.MAX_SAFE_INTEGER]) and sets
    [lastAccessed] on that record, and changes nothing else of the
    registry. *)
Lemma expand_tracked c r now st :
  own c (urls (storage st)) = Some r →
  clickCount r ≤ MAX_SAFE_INTEGER →
  ∃ st',
    expandUrl c true now st = (js_string (originalUrl r), st')
    ∧ own c (urls (storage st')) =
        Some {| id := id r; originalUrl := originalUrl r; shortCode := shortCode r;
                createdAt := createdAt r; clickCount := clickCount r + 1;
                lastAccessed := Some now |}
    ∧ (∀ k, k ≠ c → own k (urls (storage st')) = own k (urls (storage st)))
    ∧ (urls (storage st')).*1 = (urls (storage st)).*1
    ∧ counter (storage st') = counter (storage st)
    ∧ inherited st' = inherited st.
Proof.
  intros Hown Hsafe. unfold expandUrl, get. rewrite Hown. eexists. split; [done|].
  simpl. split; [|split; [|split]].
  - by rewrite own_replace_own, decide_True, Hown, js_increment_safe.
  - intros k Hk. by rewrite own_replace_own, decide_False.
  - apply keys_replace_own.
  - done.
Qed.

(** X3. An untracked expansion is a pure read: the state, the file included,
    is the one it started from. *)
Lemma expand_untracked c now st : (expandUrl c false now st).2 = st.
Proof. unfold expandUrl. by repeat case_match. Qed.

(** X5. [deleteUrl] of a stored code returns [true] and removes that record
    and no other; the counter stays. *)
Lemma delete_stored c r st :
  own c (urls (storage st)) = Some r →
  ∃ st',
    deleteUrl c st = (true, st')
    ∧ own c (urls (storage st')) = None
    ∧ (∀ k, k ≠ c → own k (urls (storage st')) = own k (urls (storage st)))
    ∧ counter (storage st') = counter (storage st).
Proof.
  intros Hown. unfold deleteUrl, get. rewrite Hown. eexists. split; [done|].
  simpl. split; [|split; [|done]].
  - by rewrite own_js_delete, decide_True.
  - intros k Hk. by rewrite own_js_delete, decide_False.
Qed.

(** C9. An empty custom code is falsy, so [shortenUrl u ""] is
    [shortenUrl u] without custom code. For a valid URL that is not stored
    yet the call returns (given a free draw within the fuel) a record for
    [u] that it has stored, and written to the file, under a freshly
    generated code of six characters, one property more than before; no
    property named by the empty string appears, and under the invariant
    there is none afterwards. *)
Theorem empty_custom_code_is_no_code fuel rnd now u st :
  shortenUrl URL_new fuel rnd now u (Some EmptyString) st
    = shortenUrl URL_new fuel rnd now u None st
  ∧ (isValidUrl URL_new u = true → findExisting u st = None →
     (∃ k, (k < fuel)%nat ∧ truthy (get (attempt rnd k) st) = false) →
     ∃ r st',
       shortenUrl URL_new fuel rnd now u (Some EmptyString) st = Returned r st'
       ∧ originalUrl r = u
       ∧ generateShortCode fuel rnd 0 st = Some (shortCode r)
       ∧ String.length (shortCode r) = 6%nat
       ∧ own (shortCode r) (urls (storage st)) = None
       ∧ own (shortCode r) (urls (storage st')) = Some r
       ∧ length (urls (storage st')) = S (length (urls (storage st)))
       ∧ saved st' = storage st' :: saved st)
  ∧ (∀ r st',
       shortenUrl URL_new fuel rnd now u (Some EmptyString) st = Returned r st' →
       findExisting u st = None →
       generateShortCode fuel rnd 0 st = Some (shortCode r)
       ∧ String.length (shortCode r) = 6%nat
       ∧ own (shortCode r) (urls (storage st')) = Some r
       ∧ own EmptyString (urls (storage st')) = own EmptyString (urls (storage st)))
  ∧ (registry_inv URL_new st → ∀ r st',
       shortenUrl URL_new fuel rnd now u (Some EmptyString) st = Returned r st' →
       own EmptyString (urls (storage st')) = None).
Proof.
  split; [done|]. split; [|split].
  - intros Hvalid Hnew (k & Hk & Hfree).
    destruct (generateShortCode_total fuel rnd st 0) as [code Hgen].
    { exists k. split; [lia|done]. }
    pose proof Hgen as (j & -> & _ & Hfree' & _)%generateShortCode_spec.
    destruct (attempt_spec rnd j) as (Hlen & _).
    pose proof (truthy_false_own _ _ Hfree') as Hown.
    unfold shortenUrl. rewrite Hvalid, Hnew. simpl. rewrite Hgen, Hfree'.
    eexists _, _. split; [done|]. simpl.
    split; [done|]. split; [done|]. split; [done|]. split; [done|].
    split; [by rewrite own_js_set, decide_True|]. split; [|done].
    by rewrite (js_set_fresh_perm _ _ _ Hown).
  - intros r st' Hret Hnew.
    apply shortenUrl_Returned in Hret as [_ [[? _]|(_ & code & Hcode & _ & -> & ->)]];
      [congruence|].
    simpl in *.
    apply generateShortCode_spec in Hcode as Hk. destruct Hk as (k & -> & _).
    destruct (attempt_spec rnd k) as (Hlen & _).
    split; [done|]. split; [done|]. split.
    + by rewrite own_js_set, decide_True.
    + rewrite own_js_set, decide_False; [done|]. intros Hk. by rewrite Hk in Hlen.
  - intros Hinv r st' Hret.
    pose proof (shortenUrl_inv _ _ _ _ _ _ _ _ _ Hinv Hret) as Hinv'.
    destruct (own EmptyString (urls (storage st'))) as [x|] eqn:Hown; [|done].
    apply own_Some_elem in Hown. by destruct (inv_nonempty _ _ Hinv' _ _ Hown).
Qed.

(** C7 (as amended). After any sequence of calls, [getStats()] without a
    code returns [totalUrls] = the number of records; [totalClicks] = the sum
    of their [clickCount], provided that sum does not exceed
    [Number.MAX_SAFE_INTEGER]; and [topUrls] = at most five entries in
    descending order of [clickCount], entry by entry the [shortCode], the
    [originalUrl] and the [clickCount] of the most clicked records of the
    mapping. *)
Theorem aggregate_stats cs st0 :
  let st := run URL_new cs st0 in
  let allUrls := Object_values (urls (storage st)) in
  ∃ t,
    getStats None st = Aggregate t
    ∧ totalUrls t = length (urls (storage st))
    ∧ (sum_clicks allUrls ≤ MAX_SAFE_INTEGER → totalClicks t = sum_clicks allUrls)
    ∧ (length (topUrls t) ≤ 5)%nat
    ∧ StronglySorted (λ a b, top_clickCount b ≤ top_clickCount a) (topUrls t)
    ∧ ∃ top rest,
        allUrls ≡ₚ top ++ rest
        ∧ Forall2 (λ e r, top_shortCode e = shortCode r
                           ∧ top_originalUrl e = originalUrl r
                           ∧ top_clickCount e = clickCount r) (topUrls t) top
        ∧ length top = (5 `min` length allUrls)%nat
        ∧ ∀ a b, a ∈ top → b ∈ rest → clickCount b ≤ clickCount a.
Proof.
  intros st allUrls. exists (getTotals st).
  pose proof (js_sort_sorted allUrls) as Hsorted.
  rewrite <- (take_drop 5 (js_sort by_clicks allUrls)) in Hsorted.
  split; [done|]. split; [|split; [|split; [|split]]].
  - unfold getTotals. simpl. unfold Object_values. by rewrite length_fmap.
  - apply totalClicks_safe.
  - unfold getTotals. simpl. rewrite length_fmap, length_take. lia.
  - unfold getTotals. simpl. fold allUrls.
    apply (StronglySorted_fmap top_of more_clicks); [done|].
    by apply StronglySorted_app_1_l in Hsorted.
  - exists (take 5 (js_sort by_clicks allUrls)), (drop 5 (js_sort by_clicks allUrls)).
    split; [|split; [|split]].
    + by rewrite take_drop, js_sort_perm.
    + unfold getTotals. simpl. fold allUrls. apply Forall2_fmap_l, Forall_Forall2_diag.
      by apply Forall_forall.
    + by rewrite length_take, (js_sort_perm by_clicks allUrls).
    + intros a b Ha Hb.
      apply (StronglySorted_app_1_elem_of _ _ _ a b Hsorted Ha Hb).
Qed.

(** The counter never goes down. *)
Lemma step_counter c st st' :
  step URL_new c st = Some st' → counter (storage st) ≤ counter (storage st').
Proof.
  destruct c as [fuel rnd now u cc|code track now|code| |code]; simpl.
  - destruct (shortenUrl _ _ _ _ _ _ _) as [r s|e s|] eqn:Hs; intros [= <-].
    + apply shortenUrl_Returned in Hs as [_ [[_ ->]|(_ & code & _ & _ & _ & ->)]];
        simpl; [lia|apply js_increment_ge].
    + by rewrite (shortenUrl_Thrown _ _ _ _ _ _ _ _ _ Hs).
  - intros [= <-]. unfold expandUrl. repeat case_match; simpl; lia.
  - by intros [= <-].
  - by intros [= <-].
  - intros [= <-]. unfold deleteUrl. case_match; simpl; lia.
Qed.

Lemma run_counter cs : ∀ st,
  counter (storage st) ≤ counter (storage (run URL_new cs st)).
Proof.
  induction cs as [|c cs IH]; intros st; simpl; [lia|].
  destruct (step URL_new c st) as [st'|] eqn:Hstep; [|lia].
  pose proof (step_counter _ _ _ Hstep). pose proof (IH st'). lia.
Qed.

(** A constructed record takes the incremented counter as its id. *)
Lemma constructed_id c st r :
  constructed URL_new c st = Some r →
  id r = "url_" +:+ pretty (js_increment (counter (storage st)))
  ∧ ∃ st', step URL_new c st = Some st'
      ∧ counter (storage st') = js_increment (counter (storage st)).
Proof.
  destruct c as [fuel rnd now u cc|code track now|code| |code]; simpl; try done.
  destruct (shortenUrl _ _ _ _ _ _ _) as [r' s|e s|] eqn:Hs; [|done..].
  destruct (findExisting u st) eqn:Hfind; [done|]. intros [= ->].
  apply shortenUrl_Returned in Hs as [_ [[? _]|(_ & code & _ & _ & -> & ->)]];
    [congruence|].
  simpl. eauto.
Qed.

(** While the counter is within the safe range the increment is exact. *)
Lemma constructed_id_safe c st r :
  constructed URL_new c st = Some r →
  counter (storage st) ≤ MAX_SAFE_INTEGER →
  id r = "url_" +:+ pretty (counter (storage st) + 1)
  ∧ ∃ st', step URL_new c st = Some st'
      ∧ counter (storage st') = counter (storage st) + 1.
Proof.
  intros (Hid & st' & Hstep & Hcnt)%constructed_id Hsafe.
  rewrite js_increment_safe in Hid, Hcnt by done. eauto.
Qed.





End Claims.

(** ** The model on small inputs *)

(** Property order: array-index keys ascending, then the other keys in
    order of creation ([007] and [4294967295] are no array indices). *)
Example property_order :
  (foldl (λ l k, js_set k other_record l) []
     ["a"; "2"; "b"; "007"; "10"; "4294967295"; "7"]%string).*1
  = ["2"; "7"; "10"; "a"; "b"; "007"; "4294967295"]%string.
Proof. by vm_compute. Qed.

(** The sort is stable: records with equal clicks keep their order. *)
Example sort_is_stable :
  shortCode <$>
    js_sort by_clicks
      [ mkShortenedUrl "url_1" "https://a.example" "a" 1 3 None;
        mkShortenedUrl "url_2" "https://b.example" "b" 2 5 None;
        mkShortenedUrl "url_3" "https://c.example" "c" 3 3 None;
        mkShortenedUrl "url_4" "https://d.example" "d" 4 5 None;
        mkShortenedUrl "url_5" "https://e.example" "e" 5 0 None ]
  = ["b"; "d"; "a"; "c"; "e"]%string.
Proof. by vm_compute. Qed.

(** The walk-through of a custom code: created as [url_1] with no clicks,
    expanded once, deleted, then gone. *)
Example custom_code_walkthrough :
  ∃ r st1 st2 st3,
    shortenUrl example_URL 1 example_rnd 1000 "https://example.com"
      (Some "ex1"%string) initial = Returned r st1
    ∧ (shortCode r, id r, clickCount r) = ("ex1", "url_1", 0)%string
    ∧ expandUrl "ex1" true 1100 st1 = (js_string "https://example.com", st2)
    ∧ (clickCount <$> own "ex1" (urls (storage st2))) = Some 1
    ∧ deleteUrl "ex1" st2 = (true, st3)
    ∧ expandUrl "ex1" true 1200 st3 = (js_null, st3).
Proof. eexists _, _, _, _. repeat split; by vm_compute. Qed.

(** A generated code: the first attempt if it is free, else the next. *)
Example generated_codes :
  generateShortCode 2 example_rnd 0 initial = Some "dkryFM"%string
  ∧ ∀ r, generateShortCode 2 example_rnd 0
           {| storage := {| urls := [("dkryFM"%string, r)]; counter := 1 |};
              saved := []; inherited := [] |} = Some "T07els"%string.
Proof. split; [by vm_compute | intros r; by vm_compute]. Qed.

(** * The claims on concrete inputs *)

(** C6, at the failing input. On a registry with no record at all, a tracked
    [expandUrl("__proto__")] finds the inherited [Object.prototype] under
    that key: it returns [undefined] rather than [null], its two writes
    land on the prototype, and the storage file is rewritten. The write
    shows afterwards: [lastAccessed] is inherited by every object, so the
    custom code [lastAccessed], free before, is refused as taken, and a
    record that was never expanded reports a [lastAccessed]. An untracked
    [expandUrl("constructor")] returns [undefined] as well. *)
Theorem expand_inherited_key :
  let st1 := (expandUrl "__proto__" true 5 initial).2 in
  own "__proto__" (urls (storage initial)) = None
  ∧ get "__proto__" initial = Inherited
  ∧ expandUrl "__proto__" true 5 initial =
      (js_undefined,
       {| storage := storage initial;
          saved := [storage initial];
          inherited := [("__proto__"%string, 5)] |})
  ∧ (expandUrl "constructor" false 5 initial).1 = js_undefined
  ∧ (∃ r st', shortenUrl example_URL 1 example_rnd 9 "https://example.com"
                (Some "lastAccessed"%string) initial = Returned r st')
  ∧ shortenUrl example_URL 1 example_rnd 9 "https://example.com"
      (Some "lastAccessed"%string) st1 = Thrown CodeAlreadyExists st1
  ∧ (∃ r st2, shortenUrl example_URL 1 example_rnd 9 "https://example.com"
                (Some "ex1"%string) st1 = Returned r st2
              ∧ lastAccessed r = None
              ∧ getStats (Some "ex1"%string) st2
                  = Summary "https://example.com" "ex1" 0 9 (Some 5)).
Proof.
  repeat split; try by vm_compute.
  - eexists _, _. by vm_compute.
  - eexists _, _. split; [by vm_compute|]. by vm_compute.
Qed.


(** The example registry satisfies the invariant. *)
Lemma example_state_inv : registry_inv example_URL example_state.
Proof.
  assert (∀ k x, (k, x) ∈ urls (storage example_state) →
            (k = "mycode"%string ∧ x = example_record)
            ∨ (k = "node"%string ∧ x = other_record)) as Hel.
  { intros k x. simpl. rewrite !elem_of_cons, elem_of_nil.
    intros [[= -> ->]|[[= -> ->]|[]]]; auto. }
  split.
  - csimpl. apply NoDup_cons. split; [|apply NoDup_singleton].
    by rewrite list_elem_of_singleton.
  - intros k x [[-> ->]|[-> ->]]%Hel; done.
  - intros k x [[-> ->]|[-> ->]]%Hel; done.
  - intros k x [[-> ->]|[-> ->]]%Hel; done.
  - intros k1 x1 k2 x2 [[-> ->]|[-> ->]]%Hel [[-> ->]|[-> ->]]%Hel; done.
  - intros k x [[-> ->]|[-> ->]]%Hel; [exists 1 | exists 2]; by vm_compute.
Qed.

(** It is the registry the program holds after these calls. *)
Example example_state_reached :
  storage (run example_URL
    [ CallShorten 1 example_rnd 1000 "https://example.com" (Some "mycode"%string);
      CallShorten 1 example_rnd 2000 "https://nodejs.org/en/docs/" (Some "node"%string);
      CallExpand "node" true 2100; CallExpand "node" true 2200;
      CallExpand "node" true 2300; CallExpand "node" true 2400;
      CallExpand "node" true 2500; CallExpand "node" true 2600;
      CallExpand "mycode" true 1400; CallExpand "mycode" true 1500;
      CallExpand "node" true 2700; CallExpand "node" false 2800 ]
    initial)
  = storage example_state.
Proof. by vm_compute. Qed.

Lemma shorten_then_expand_witness :
  ∃ r st',
    shortenUrl example_URL 3 example_rnd 3000 "https://www.google.com" None
      example_state = Returned r st'
    ∧ ∀ track now',
        (expandUrl (shortCode r) track now' st').1 = js_string "https://www.google.com".
Proof.
  apply (shorten_then_expand example_URL 3 example_rnd 3000
           "https://www.google.com" example_state).
  - apply example_state_inv.
  - reflexivity.
  - exists 0%nat. split; [lia | reflexivity].
Defined.

Lemma shorten_existing_idempotent_witness :
  shortenUrl example_URL 3 example_rnd 3000 "https://example.com"
    (Some "another"%string) example_state
  = Returned example_record example_state.
Proof.
  apply (shorten_existing_idempotent example_URL 3 example_rnd 3000
           "https://example.com" (Some "another"%string) example_state
           "mycode" example_record).
  - apply example_state_inv.
  - simpl. left.
  - reflexivity.
Defined.

(** C4 as stated fails: the new URL need not be a valid one, and validation
    comes first. With the code [mycode] taken and ["not-a-url"] stored
    nowhere, the call throws [InvalidUrl], not [CodeAlreadyExists]. *)
Lemma taken_custom_code_invalid_url :
  own "mycode" (urls (storage example_state)) = Some example_record
  ∧ findExisting "not-a-url" example_state = None
  ∧ shortenUrl example_URL 3 example_rnd 3000 "not-a-url" (Some "mycode"%string)
      example_state = Thrown InvalidUrl example_state
  ∧ Thrown (A := ShortenedUrl) InvalidUrl example_state
      ≠ Thrown CodeAlreadyExists example_state.
Proof. repeat split; try by vm_compute. Qed.

Lemma taken_custom_code_rejected_witness :
  shortenUrl example_URL 3 example_rnd 3000 "https://www.google.com"
    (Some "mycode"%string) example_state
  = Thrown CodeAlreadyExists example_state.
Proof.
  apply (taken_custom_code_rejected example_URL 3 example_rnd 3000
           "https://www.google.com" "mycode" example_record example_state).
  - apply example_state_inv.
  - simpl. left.
  - reflexivity.
  - intros k x. simpl. rewrite !elem_of_cons, elem_of_nil.
    intros [[= -> ->]|[[= -> ->]|[]]]; by vm_compute.
Defined.

Lemma duplicate_check_precedes_code_check_witness :
  shortenUrl example_URL 3 example_rnd 3000 "https://example.com"
    (Some "node"%string) example_state
  = Returned example_record example_state
  ∧ shortCode example_record = "mycode"%string
  ∧ own "mycode" (urls (storage example_state)) = Some example_record
  ∧ ∀ r1, ("node"%string, r1) ∈ urls (storage example_state) →
          get "node" example_state = Own r1.
Proof.
  apply (duplicate_check_precedes_code_check example_URL 3 example_rnd 3000
           "https://example.com" "node" example_state "mycode" example_record).
  - apply example_state_inv.
  - simpl. left.
  - reflexivity.
Defined.

(** C3 as stated fails: [mailto:user@example.com] has a scheme and no
    authority, the platform's parser accepts it, and [shortenUrl] stores it
    rather than throwing [InvalidUrl]. *)
Lemma url_without_authority_accepted :
  spec_scheme_and_authority "mailto:user@example.com" = false
  ∧ isValidUrl example_URL "mailto:user@example.com" = true
  ∧ ∃ r st',
      shortenUrl example_URL 1 example_rnd 1000 "mailto:user@example.com"
        (Some "mail"%string) initial = Returned r st'
      ∧ originalUrl r = "mailto:user@example.com"%string
      ∧ own "mail" (urls (storage st')) = Some r.
Proof.
  split; [by vm_compute|]. split; [by vm_compute|].
  eexists _, _. repeat split; by vm_compute.
Qed.

(** The specification's reading and the program's test agree on the URLs
    the demonstration uses and on its example of an invalid one. *)
Example spec_reading_on_examples :
  Forall (λ u, spec_scheme_and_authority u = true ∧ example_URL u = true)
    ("https://example.com"%string :: testUrls)
  ∧ spec_scheme_and_authority "not-a-url" = false
  ∧ example_URL "not-a-url" = false.
Proof. split; [repeat constructor|split; by vm_compute]. Qed.

(** C7 as stated fails: with one record clicked 2^53 times and one clicked
    once, [reduce] adds doubles and reports 2^53, one less than the sum. *)
Lemma total_clicks_rounded :
  getStats None clicks_at_limit = Aggregate (getTotals clicks_at_limit)
  ∧ totalClicks (getTotals clicks_at_limit) = 9007199254740992
  ∧ sum_clicks (Object_values (urls (storage clicks_at_limit))) = 9007199254740993.
Proof. repeat split; by vm_compute. Qed.

Lemma aggregate_stats_witness :
  ∃ t,
    getStats None
      (run example_URL [CallExpand "node" true 2900; CallDelete "mycode"] example_state)
    = Aggregate t
    ∧ totalUrls t = 1%nat
    ∧ totalClicks t = 8
    ∧ topUrls t = [mkTopUrl "node" "https://nodejs.org/en/docs/" 8].
Proof.
  destruct (aggregate_stats example_URL
              [CallExpand "node" true 2900; CallDelete "mycode"] example_state)
    as (t & Hstats & Hurls & Hclicks & _ & _ & top & rest & _ & Htop & _).
  exists t. split; [exact Hstats|]. split; [exact Hurls|]. split.
  - rewrite Hclicks; [reflexivity|]. vm_compute. discriminate.
  - injection Hstats as <-. reflexivity.
Defined.



Lemma empty_custom_code_is_no_code_witness :
  ∃ r st',
    shortenUrl example_URL 2 example_rnd 3000 "https://www.google.com"
      (Some EmptyString) example_state = Returned r st'
    ∧ originalUrl r = "https://www.google.com"%string
    ∧ generateShortCode 2 example_rnd 0 example_state = Some (shortCode r)
    ∧ String.length (shortCode r) = 6%nat
    ∧ own (shortCode r) (urls (storage example_state)) = None
    ∧ own (shortCode r) (urls (storage st')) = Some r
    ∧ length (urls (storage st')) = S (length (urls (storage example_state)))
    ∧ saved st' = storage st' :: saved example_state.
Proof.
  destruct (empty_custom_code_is_no_code example_URL 2 example_rnd 3000
              "https://www.google.com" example_state) as (_ & Hstores & _).
  apply Hstores.
  - reflexivity.
  - reflexivity.
  - exists 0%nat. split; [lia | reflexivity].
Defined.

Lemma expand_tracked_witness :
  ∃ st',
    expandUrl "node" true 2900 example_state
      = (js_string "https://nodejs.org/en/docs/", st')
    ∧ own "node" (urls (storage st')) =
        Some {| id := "url_2"; originalUrl := "https://nodejs.org/en/docs/";
                shortCode := "node"; createdAt := 2000; clickCount := 7 + 1;
                lastAccessed := Some 2900 |}
    ∧ (∀ k, k ≠ "node"%string →
            own k (urls (storage st')) = own k (urls (storage example_state)))
    ∧ (urls (storage st')).*1 = (urls (storage example_state)).*1
    ∧ counter (storage st') = counter (storage example_state)
    ∧ inherited st' = inherited example_state.
Proof.
  apply (expand_tracked "node" other_record 2900 example_state).
  - reflexivity.
  - vm_compute. discriminate.
Defined.

Lemma reachable_inv_witness :
  registry_inv example_URL
    (run example_URL
       [ CallShorten 1 example_rnd 1000 "https://example.com" (Some "mycode"%string);
         CallExpand "mycode" true 1400; CallDelete "mycode" ] initial).
Proof.
  apply (reachable_inv example_URL). eexists. reflexivity.
Defined.

Lemma delete_stored_witness :
  ∃ st',
    deleteUrl "node" example_state = (true, st')
    ∧ own "node" (urls (storage st')) = None
    ∧ (∀ k, k ≠ "node"%string →
            own k (urls (storage st')) = own k (urls (storage example_state)))
    ∧ counter (storage st') = counter (storage example_state).
Proof.
  apply (delete_stored "node" other_record example_state). reflexivity.
Defined.

(** * Further properties of the methods *)

Section Methods.

Variable URL_new : string → bool.

(** ** [shortenUrl] with a custom code *)

(** X7. A free, non-empty custom code is used verbatim: for a valid URL not
    stored yet, and a counter that has not passed [Number.MAX_SAFE_INTEGER],
    [shortenUrl u c] returns the record [url_<counter+1>] under code [c] with
    no clicks and no [lastAccessed], stores it under [c] without touching
    any other key, increments the counter and writes the storage once; an
    expansion of [c] then yields [u]. *)
Lemma shorten_custom_code fuel rnd now u c st :
  isValidUrl URL_new u = true →
  findExisting u st = None →
  c ≠ EmptyString →
  get c st = Undefined →
  counter (storage st) ≤ MAX_SAFE_INTEGER →
  ∃ st',
    shortenUrl URL_new fuel rnd now u (Some c) st =
      Returned {| id := "url_" +:+ pretty (counter (storage st) + 1);
                  originalUrl := u; shortCode := c; createdAt := now;
                  clickCount := 0; lastAccessed := None |} st'
    ∧ own c (urls (storage st')) =
        Some {| id := "url_" +:+ pretty (counter (storage st) + 1);
                originalUrl := u; shortCode := c; createdAt := now;
                clickCount := 0; lastAccessed := None |}
    ∧ (∀ k, k ≠ c → own k (urls (storage st')) = own k (urls (storage st)))
    ∧ counter (storage st') = counter (storage st) + 1
    ∧ saved st' = storage st' :: saved st
    ∧ ∀ track now', (expandUrl c track now' st').1 = js_string u.
Proof.
  intros Hvalid Hnew Hc Hget Hsafe. unfold shortenUrl.
  rewrite Hvalid, Hnew. simpl. unfold js_or.
  rewrite bool_decide_eq_false_2 by done. rewrite Hget. simpl.
  rewrite (js_increment_safe _ Hsafe).
  eexists. split; [done|]. simpl.
  split; [by rewrite own_js_set, decide_True|].
  split; [intros k Hk; by rewrite own_js_set, decide_False|].
  split; [done|]. split; [done|].
  intros track now'. unfold expandUrl, get. simpl.
  rewrite own_js_set, decide_True by done. by destruct track.
Qed.

(** X8. [CodeAlreadyExists] is thrown only for a custom code: the URL was
    valid and not stored, the caller passed a non-empty code, and
    [urls[code]] was truthy; the state is left as it was. *)
Lemma code_error_only_for_custom_code fuel rnd now u cc st st' :
  shortenUrl URL_new fuel rnd now u cc st = Thrown CodeAlreadyExists st' →
  st' = st
  ∧ isValidUrl URL_new u = true
  ∧ findExisting u st = None
  ∧ ∃ c, cc = Some c ∧ c ≠ EmptyString ∧ truthy (get c st) = true.
Proof.
  intros Hthrown. split; [by eapply shortenUrl_Thrown|].
  revert Hthrown. unfold shortenUrl.
  destruct (isValidUrl URL_new u); simpl; [|done].
  destruct (findExisting u st); [done|].
  destruct cc as [c|]; simpl.
  - case_bool_decide as Hc.
    + destruct (generateShortCode fuel rnd 0 st) as [code|] eqn:Hgen; [|done].
      apply generateShortCode_spec in Hgen as (k & -> & _ & -> & _). done.
    + destruct (truthy (get c st)) eqn:Hget; [|done].
      intros _. repeat split. eauto.
  - destruct (generateShortCode fuel rnd 0 st) as [code|] eqn:Hgen; [|done].
    apply generateShortCode_spec in Hgen as (k & -> & _ & -> & _). done.
Qed.

(** The names [storage.urls] inherits can never be chosen. *)
Lemma inherited_truthy c st : c ∈ prototype_names → truthy (get c st) = true.
Proof.
  intros Hc. unfold get. destruct (own c _); [done|].
  by rewrite bool_decide_eq_true_2.
Qed.

Lemma shortenUrl_no_inherited fuel rnd now u cc st r st' :
  no_inherited_keys st →
  shortenUrl URL_new fuel rnd now u cc st = Returned r st' →
  no_inherited_keys st'.
Proof.
  intros Hinv [_ [[_ ->]|(_ & code & _ & Hfree & -> & ->)]]%shortenUrl_Returned;
    [done|].
  intros k x. simpl.
  rewrite (js_set_fresh_perm code _ _ (truthy_false_own _ _ Hfree)), elem_of_cons.
  intros [[= -> ->]|Hin]; [|by eapply Hinv].
  intros Hk. apply (inherited_truthy _ st) in Hk. congruence.
Qed.

Lemma step_no_inherited c st st' :
  no_inherited_keys st → step URL_new c st = Some st' → no_inherited_keys st'.
Proof.
  intros Hinv. destruct c as [fuel rnd now u cc|code track now|code| |code]; simpl.
  - destruct (shortenUrl _ _ _ _ _ _ _) as [r s|e s|] eqn:Hs; intros [= <-].
    + eauto using shortenUrl_no_inherited.
    + by rewrite (shortenUrl_Thrown _ _ _ _ _ _ _ _ _ Hs).
  - intros [= <-]. unfold expandUrl. repeat case_match; simpl; try done.
    intros k x [[-> ->]|Hin]%elem_replace_own; [|by eapply Hinv].
    unfold get in *. repeat case_match; simplify_eq.
    eapply Hinv. by apply own_Some_elem.
  - by intros [= <-].
  - by intros [= <-].
  - intros [= <-]. unfold deleteUrl. case_match; simpl; [|done].
    intros k x [Hin _]%elem_js_delete. by eapply Hinv.
Qed.

(** X9. A name inherited from [Object.prototype] ([constructor],
    [toString], ...) is refused as a custom code in every state, the empty
    registry included, so no reachable registry holds a record under one. *)
Lemma inherited_names_never_stored :
  (∀ fuel rnd now u c st,
     c ∈ prototype_names → isValidUrl URL_new u = true → findExisting u st = None →
     shortenUrl URL_new fuel rnd now u (Some c) st = Thrown CodeAlreadyExists st)
  ∧ (∀ st, reachable URL_new st → no_inherited_keys st).
Proof.
  split.
  - intros fuel rnd now u c st Hc Hvalid Hnew. unfold shortenUrl.
    rewrite Hvalid, Hnew. simpl. unfold js_or.
    rewrite bool_decide_eq_false_2; [by rewrite inherited_truthy|].
    intros ->. revert Hc. unfold prototype_names.
    rewrite !elem_of_cons, elem_of_nil. intros H.
    repeat (destruct H as [H|H]; [done|]). done.
  - intros st [cs ->].
    assert (no_inherited_keys initial) as Hinit.
    { intros k r H. by apply elem_of_nil in H. }
    revert Hinit. generalize initial. induction cs as [|c cs IH]; intros st Hst; simpl; [done|].
    destruct (step URL_new c st) as [st'|] eqn:Hstep; [|done].
    eauto using step_no_inherited.
Qed.

(** An untracked expansion returns the state it was given. *)
Lemma expand_untracked_state c now st : (expandUrl c false now st).2 = st.
Proof. unfold expandUrl. by repeat case_match. Qed.

(** ** Counting clicks and records *)

Lemma sum_clicks_replace_own c r r' (l : Urls) :
  own c l = Some r →
  sum_clicks (replace_own c r' l).*2 + clickCount r
  = sum_clicks l.*2 + clickCount r'.
Proof.
  induction l as [|[k v] l IH]; csimpl; [done|].
  destruct (decide (k = c)) as [->|Hk]; csimpl.
  - intros [= ->]. lia.
  - intros Hown. specialize (IH Hown). lia.
Qed.

Lemma sum_clicks_js_delete c r (l : Urls) :
  NoDup l.*1 → own c l = Some r →
  sum_clicks (js_delete c l).*2 + clickCount r = sum_clicks l.*2
  ∧ S (length (js_delete c l)) = length l.
Proof.
  induction l as [|[k v] l IH]; csimpl; [done|].
  rewrite NoDup_cons. intros [Hk Hnd].
  destruct (decide (k = c)) as [->|Hne]; csimpl.
  - intros [= ->].
    assert (js_delete c l = l) as ->; [|split; [lia|done]].
    clear IH Hnd. induction l as [|[k' v'] l IH]; simpl; [done|].
    csimpl in Hk. apply not_elem_of_cons in Hk as [Hne Hk].
    rewrite decide_False by done. by rewrite IH.
  - intros Hown. destruct (IH Hnd Hown) as [IH1 IH2]. split; lia.
Qed.

(** The clicks of a stored record are part of the sum. *)
Lemma sum_clicks_own c r (l : Urls) :
  own c l = Some r → clickCount r ≤ sum_clicks l.*2.
Proof.
  intros Hown.
  pose proof (sum_clicks_replace_own c r (mkShortenedUrl "" "" "" 0 0 None) _ Hown)
    as Hsum.
  simpl in Hsum. lia.
Qed.

(** X12. A tracked expansion of a stored code adds exactly one to
    [totalClicks], as long as the sum of all clicks is below
    [Number.MAX_SAFE_INTEGER], and leaves [totalUrls] as it was. *)
Lemma totals_after_expand c r now st :
  own c (urls (storage st)) = Some r →
  sum_clicks (Object_values (urls (storage st))) < MAX_SAFE_INTEGER →
  totalClicks (getTotals (expandUrl c true now st).2)
    = totalClicks (getTotals st) + 1
  ∧ totalUrls (getTotals (expandUrl c true now st).2) = totalUrls (getTotals st).
Proof.
  intros Hown Hsafe.
  pose proof (sum_clicks_own _ _ _ Hown) as Hr. unfold Object_values in Hsafe.
  assert (clickCount r ≤ MAX_SAFE_INTEGER) as Hr' by lia.
  unfold expandUrl, get. rewrite Hown. split.
  - pose proof (sum_clicks_replace_own c r
      {| id := id r; originalUrl := originalUrl r; shortCode := shortCode r;
         createdAt := createdAt r; clickCount := js_increment (clickCount r);
         lastAccessed := Some now |} _ Hown) as Hsum.
    simpl in Hsum. rewrite (js_increment_safe _ Hr') in Hsum.
    rewrite !totalClicks_safe; unfold Object_values; simpl;
      rewrite ?(js_increment_safe _ Hr'); lia.
  - unfold getTotals, Object_values. simpl. rewrite !length_fmap.
    by rewrite <- (length_fmap fst), keys_replace_own, length_fmap.
Qed.

(** A new own property goes somewhere into the list, which is otherwise
    kept as it is. *)
Lemma insert_index_split i k v (l : Urls) :
  ∃ l1 l2, l = l1 ++ l2 ∧ insert_index i k v l = l1 ++ (k, v) :: l2.
Proof.
  induction l as [|[k0 v0] l (l1 & l2 & Hl & IH)]; simpl.
  - by exists [], [].
  - destruct (array_index k0) as [j|]; [destruct (j <? i)|].
    + exists ((k0, v0) :: l1), l2. simpl. by rewrite IH, <- Hl.
    + by exists [], ((k0, v0) :: l).
    + by exists [], ((k0, v0) :: l).
Qed.

Lemma js_set_fresh_split k v (l : Urls) :
  own k l = None → ∃ l1 l2, l = l1 ++ l2 ∧ js_set k v l = l1 ++ (k, v) :: l2.
Proof.
  intros Hown. unfold js_set. rewrite Hown.
  destruct (array_index k) as [i|]; [apply insert_index_split|].
  exists l, []. by rewrite app_nil_r.
Qed.

(** The running sum of [reduce] is a double. *)
Lemma fold_left_clicks_double l : ∀ acc,
  to_double acc = acc →
  to_double (fold_left (λ sum url, js_add sum (clickCount url)) l acc)
  = fold_left (λ sum url, js_add sum (clickCount url)) l acc.
Proof.
  induction l as [|r l IH]; intros acc Hacc; simpl; [done|].
  apply IH, to_double_idemp.
Qed.

(** A record without clicks adds nothing to the total, wherever it is
    listed. *)
Lemma fold_left_clicks_zero l1 r l2 :
  clickCount r = 0 →
  fold_left (λ sum url, js_add sum (clickCount url)) (l1 ++ r :: l2) 0
  = fold_left (λ sum url, js_add sum (clickCount url)) (l1 ++ l2) 0.
Proof.
  intros Hr. rewrite !fold_left_app. simpl. f_equal.
  rewrite Hr. unfold js_add at 1. rewrite N.add_0_r.
  by apply fold_left_clicks_double.
Qed.

(** X13. Constructing a record adds one to [totalUrls] and nothing to
    [totalClicks]; the new record is listed, after all others unless its
    code is an array index. *)
Lemma totals_after_construct fuel rnd now u cc st r st' :
  shortenUrl URL_new fuel rnd now u cc st = Returned r st' →
  findExisting u st = None →
  totalUrls (getTotals st') = S (totalUrls (getTotals st))
  ∧ totalClicks (getTotals st') = totalClicks (getTotals st)
  ∧ listUrls st' ≡ₚ r :: listUrls st
  ∧ (array_index (shortCode r) = None → listUrls st' = listUrls st ++ [r]).
Proof.
  intros [_ [[? _]|(_ & code & _ & Hfree & -> & ->)]]%shortenUrl_Returned Hnew;
    [congruence|].
  apply truthy_false_own in Hfree.
  set (r := {| id := _ |}).
  pose proof (js_set_fresh_perm code r _ Hfree) as Hperm.
  assert ((js_set code r (urls (storage st))).*2 ≡ₚ r :: (urls (storage st)).*2) as Hperm2.
  { by rewrite Hperm. }
  unfold getTotals, listUrls, Object_values. simpl.
  split; [|split; [|split]].
  - by rewrite Hperm2.
  - destruct (js_set_fresh_split code r _ Hfree) as (l1 & l2 & -> & ->).
    rewrite !fmap_app, fmap_cons. by apply fold_left_clicks_zero.
  - done.
  - intros Hidx. unfold js_set. rewrite Hfree, Hidx. by rewrite fmap_app.
Qed.

(** X14. Deleting a stored record takes one from [totalUrls] and, as long
    as the sum of all clicks does not exceed [Number.MAX_SAFE_INTEGER], the
    record's clicks from [totalClicks]. *)
Lemma totals_after_delete c r st :
  registry_inv URL_new st →
  own c (urls (storage st)) = Some r →
  sum_clicks (Object_values (urls (storage st))) ≤ MAX_SAFE_INTEGER →
  totalUrls (getTotals st) = S (totalUrls (getTotals (deleteUrl c st).2))
  ∧ totalClicks (getTotals st)
    = totalClicks (getTotals (deleteUrl c st).2) + clickCount r.
Proof.
  intros Hinv Hown Hsafe. unfold Object_values in Hsafe.
  destruct (sum_clicks_js_delete c r _ (inv_keys _ _ Hinv) Hown) as [Hsum Hlen].
  unfold deleteUrl, get. rewrite Hown. split.
  - unfold getTotals, Object_values. simpl. by rewrite !length_fmap.
  - rewrite !totalClicks_safe; unfold Object_values; simpl; lia.
Qed.

(** X15. [clickCount] counts the tracked expansions: after [n] of them on a
    stored code, the record has [n] more clicks, as long as that count stays
    within 2^53 ([Number.MAX_SAFE_INTEGER] + 1), and its [lastAccessed] is
    the time of the last one; nothing else of it changed. *)
Lemma clicks_count_expansions c (times : list Date) : ∀ r st,
  own c (urls (storage st)) = Some r →
  clickCount r + N.of_nat (length times) ≤ MAX_SAFE_INTEGER + 1 →
  ∃ r',
    own c (urls (storage (run URL_new ((λ t, CallExpand c true t) <$> times) st)))
      = Some r'
    ∧ clickCount r' = clickCount r + N.of_nat (length times)
    ∧ lastAccessed r' = from_option Some (lastAccessed r) (last times)
    ∧ (id r', originalUrl r', shortCode r', createdAt r')
      = (id r, originalUrl r, shortCode r, createdAt r).
Proof.
  induction times as [|t times IH]; intros r st Hown Hsafe; csimpl.
  - exists r. repeat split; [done | lia].
  - csimpl in Hsafe.
    unfold expandUrl at 1, get at 1. rewrite Hown. simpl.
    rewrite js_increment_safe by lia.
    match goal with |- context [run _ _ ?s] =>
      destruct (IH {| id := id r; originalUrl := originalUrl r;
                      shortCode := shortCode r; createdAt := createdAt r;
                      clickCount := clickCount r + 1; lastAccessed := Some t |} s)
        as (r' & Hr' & Hclicks & Hlast & Hsame)
    end.
    { simpl. by rewrite own_replace_own, decide_True, Hown. }
    { simpl. lia. }
    exists r'. split; [done|]. simpl in *. split; [lia|]. split; [|done].
    rewrite Hlast. destruct times as [|t' times]; [done|].
    rewrite last_cons_cons. destruct (last (t' :: times)) eqn:E; [done|].
    by apply last_None in E.
Qed.

(** ** Persistence *)

(** No change without a write: a call either leaves both the storage and
    the file alone, or hands the whole new storage to the file, once. *)
Lemma change_is_written c st st' :
  step URL_new c st = Some st' →
  (storage st' = storage st ∧ saved st' = saved st)
  ∨ saved st' = storage st' :: saved st.
Proof.
  destruct c as [fuel rnd now u cc|code track now|code| |code]; simpl.
  - destruct (shortenUrl _ _ _ _ _ _ _) as [r s|e s|] eqn:Hs; intros [= <-].
    + apply shortenUrl_Returned in Hs as [_ [[_ ->]|(_ & code & _ & _ & _ & ->)]];
        [by left | by right].
    + rewrite (shortenUrl_Thrown _ _ _ _ _ _ _ _ _ Hs). by left.
  - intros [= <-]. unfold expandUrl. repeat case_match; simpl; auto.
  - intros [= <-]. by left.
  - intros [= <-]. by left.
  - intros [= <-]. unfold deleteUrl. case_match; simpl; auto.
Qed.

Lemma run_in_sync cs : ∀ st, in_sync st → in_sync (run URL_new cs st).
Proof.
  induction cs as [|c cs IH]; intros st Hst; simpl; [done|].
  destruct (step URL_new c st) as [st'|] eqn:Hstep; [|done].
  apply IH. unfold in_sync in *.
  destruct (change_is_written _ _ _ Hstep) as [[Hs Hf]| ->]; [|done].
  by rewrite Hf, Hs.
Qed.

(** X16. In every state reached from a missing storage file, the document
    written last is the storage held in memory. *)
Lemma reachable_in_sync st : reachable URL_new st → in_sync st.
Proof. intros [cs ->]. by apply run_in_sync. Qed.

(** ** The counter *)

(** X17. The counter counts the records ever constructed: over any sequence
    of calls that ends with the counter within [Number.MAX_SAFE_INTEGER], it
    grows by the number of ids assigned. *)
Lemma counter_counts_constructed cs : ∀ st,
  counter (storage (run URL_new cs st)) ≤ MAX_SAFE_INTEGER →
  counter (storage (run URL_new cs st))
  = counter (storage st) + N.of_nat (length (assigned URL_new cs st)).
Proof.
  induction cs as [|c cs IH]; intros st; simpl; [lia|].
  destruct (step URL_new c st) as [st'|] eqn:Hstep; [|simpl; lia].
  intros Hsafe. rewrite IH by done.
  pose proof (step_counter _ _ _ _ Hstep) as Hmono.
  pose proof (run_counter URL_new cs st') as Hrun.
  destruct (constructed URL_new c st) as [r|] eqn:Hc.
  - apply constructed_id_safe in Hc as (_ & st'' & Hstep' & Hcnt); [|lia].
    assert (st'' = st') as -> by congruence. simpl. lia.
  - enough (counter (storage st') = counter (storage st)) by lia.
    destruct c as [fuel rnd now u cc|code track now|code| |code]; simpl in *.
    + destruct (shortenUrl _ _ _ _ _ _ _) as [r s|e s|] eqn:Hs; simplify_eq.
      * apply shortenUrl_Returned in Hs as [_ [[_ ->]|(Hnew & _)]]; [done|].
        by rewrite Hnew in Hc.
      * by rewrite (shortenUrl_Thrown _ _ _ _ _ _ _ _ _ Hs).
    + simplify_eq. unfold expandUrl. by repeat case_match.
    + by simplify_eq.
    + by simplify_eq.
    + simplify_eq. unfold deleteUrl. by case_match.
Qed.

(** ** Ranking *)

(** X18. Ties in [topUrls] are broken by listing order: the ranking that
    [getStats] takes its first five entries from lists records with equal
    [clickCount] in the order [listUrls] gives them. *)
Lemma ranking_is_stable st n :
  topUrls (getTotals st) = top_of <$> take 5 (js_sort by_clicks (listUrls st))
  ∧ filter (λ r, clickCount r = n) (js_sort by_clicks (listUrls st))
    = filter (λ r, clickCount r = n) (listUrls st).
Proof.
  split; [done|]. generalize (listUrls st). intros l.
  induction l as [|a l IH]; [done|]. simpl js_sort.
  rewrite (filter_cons _ a l), <- IH. clear IH.
  generalize (js_sort by_clicks l). intros s.
  induction s as [|b s IHs]; [done|]. simpl sort_insert.
  unfold by_clicks at 1.
  destruct (Z.ltb_spec (Z.of_N (clickCount a) - Z.of_N (clickCount b)) 0) as [Hlt|Hge];
    [|done].
  rewrite !(filter_cons _ b), IHs.
  destruct (decide (clickCount a = n)) as [Ha|Ha];
    destruct (decide (clickCount b = n)) as [Hb|Hb]; try done.
  lia.
Qed.

(** ** [deleteUrl] and [getFullShortUrl] *)

(** X19. Deleting is final and idempotent: once a stored code (not one of
    the inherited names) is deleted, a second [deleteUrl] returns [false]
    and [expandUrl] returns [null], both without any change. *)
Lemma delete_then_gone c r track now st :
  own c (urls (storage st)) = Some r →
  c ∉ prototype_names → c ≠ "lastAccessed"%string →
  let st' := (deleteUrl c st).2 in
  (deleteUrl c st).1 = true
  ∧ deleteUrl c st' = (false, st')
  ∧ expandUrl c track now st' = (js_null, st').
Proof.
  intros Hown Hc Hla st'.
  assert (deleteUrl c st =
            (true, saveStorage (with_storage
               {| urls := js_delete c (urls (storage st));
                  counter := counter (storage st) |} st))) as Hdel.
  { unfold deleteUrl, get. by rewrite Hown. }
  subst st'. rewrite Hdel. simpl.
  set (st' := saveStorage _).
  assert (get c st' = Undefined) as Hget.
  { unfold get. simpl. rewrite own_js_delete, decide_True by done.
    rewrite bool_decide_eq_false_2 by done.
    rewrite (bool_decide_eq_false_2 (c = _)) by done. by rewrite andb_false_r. }
  split; [done|]. split.
  - unfold deleteUrl. by rewrite Hget.
  - unfold expandUrl. by rewrite Hget.
Qed.

(** A code that is neither stored nor inherited is reported with [null],
    and nothing changes. *)
Lemma expand_unknown c track now st :
  own c (urls (storage st)) = None →
  c ∉ prototype_names → c ≠ "lastAccessed"%string →
  expandUrl c track now st = (js_null, st).
Proof.
  intros Hown Hc Hla. unfold expandUrl, get. rewrite Hown.
  rewrite bool_decide_eq_false_2 by done.
  rewrite (bool_decide_eq_false_2 (c = _)) by done. by rewrite andb_false_r.
Qed.

(** X20. For a given base URL, different codes give different full short
    URLs, and the full URL is the base, a slash and the code. *)
Lemma full_short_url_injective baseUrl c1 c2 :
  (getFullShortUrl baseUrl c1 = getFullShortUrl baseUrl c2 → c1 = c2)
  ∧ String.length (getFullShortUrl baseUrl c1)
    = (String.length baseUrl + 1 + String.length c1)%nat.
Proof.
  unfold getFullShortUrl. split.
  - intros H. by apply (inj (String.app "/")), (inj (String.app baseUrl)).
  - rewrite !length_app_string. simpl. lia.
Qed.

(** ** [getStats] with a code, and the order of [listUrls] *)

(** X27. [getStats] of a code reports what a tracked expansion just did: one
    click more than before (for a count that has not passed
    [Number.MAX_SAFE_INTEGER]) and [lastAccessed] at the time of the
    expansion, with the URL, code and creation time of the record. *)
Lemma stats_after_expand c r now st :
  own c (urls (storage st)) = Some r → c ≠ EmptyString →
  clickCount r ≤ MAX_SAFE_INTEGER →
  getStats (Some c) (expandUrl c true now st).2
  = Summary (originalUrl r) (shortCode r) (clickCount r + 1) (createdAt r) (Some now).
Proof.
  intros Hown Hc Hsafe. unfold expandUrl, get at 1. rewrite Hown. simpl.
  unfold getStats, js_or. rewrite bool_decide_eq_false_2 by done.
  unfold get. simpl.
  by rewrite own_replace_own, decide_True, Hown, js_increment_safe.
Qed.

(** X28. [generateShortCode] returns the first code drawn that is not taken:
    it skips exactly the attempts whose code is in use. *)
Lemma generated_code_is_first_free fuel rnd st code :
  generateShortCode fuel rnd 0 st = Some code ↔
  ∃ k, (k < fuel)%nat ∧ code = attempt rnd k
       ∧ truthy (get (attempt rnd k) st) = false
       ∧ ∀ j, (j < k)%nat → truthy (get (attempt rnd j) st) = true.
Proof.
  split.
  - intros (k & -> & Hk & Hfree & Hbusy)%generateShortCode_spec.
    exists k. repeat split; [lia | done |]. intros j Hj. apply Hbusy. lia.
  - intros (k & Hk & -> & Hfree & Hbusy).
    destruct (generateShortCode_total fuel rnd st 0) as [code Hcode].
    { exists k. split; [lia|done]. }
    rewrite Hcode. f_equal.
    apply generateShortCode_spec in Hcode as (k' & -> & _ & Hfree' & Hbusy').
    destruct (decide (k' < k)%nat) as [Hlt|Hge].
    { rewrite Hbusy in Hfree' by done. done. }
    destruct (decide (k < k')%nat) as [Hlt|Hge'].
    { rewrite Hbusy' in Hfree by lia. done. }
    f_equal. lia.
Qed.

Lemma named_ids_elem i (l : Urls) :
  i ∈ named_ids l → ∃ k r, (k, r) ∈ l ∧ id r = i ∧ array_index k = None.
Proof.
  induction l as [|[k r] l IH]; simpl; [by intros ?%elem_of_nil|].
  destruct (array_index k) eqn:Hk.
  - intros (k' & r' & Hin & ? & ?)%IH. exists k', r'. split; [by right | done].
  - intros [->|(k' & r' & Hin & ? & ?)%IH]%elem_of_cons.
    + exists k, r. split; [by left | done].
    + exists k', r'. split; [by right | done].
Qed.

Lemma named_ids_insert_index i k v (l : Urls) :
  array_index k = Some i → named_ids (insert_index i k v l) = named_ids l.
Proof.
  intros Hk. induction l as [|[k0 v0] l IH]; simpl; [by rewrite Hk|].
  destruct (array_index k0) as [j|] eqn:Hk0; simpl.
  - destruct (j <? i); simpl; by rewrite ?Hk, ?Hk0.
  - by rewrite Hk, Hk0.
Qed.

Lemma named_ids_app (l1 l2 : Urls) :
  named_ids (l1 ++ l2) = named_ids l1 ++ named_ids l2.
Proof.
  induction l1 as [|[k r] l1 IH]; simpl; [done|].
  destruct (array_index k); simpl; by rewrite IH.
Qed.

Lemma named_ids_replace_own c x x' (l : Urls) :
  own c l = Some x → id x' = id x →
  named_ids (replace_own c x' l) = named_ids l.
Proof.
  intros Hown Hid. induction l as [|[k v] l IH]; simpl in *; [done|].
  destruct (decide (k = c)) as [->|Hk]; simpl.
  - injection Hown as ->. by rewrite Hid.
  - by rewrite IH.
Qed.

Lemma named_ids_js_delete c (l : Urls) :
  named_ids (js_delete c l) `sublist_of` named_ids l.
Proof.
  induction l as [|[k v] l IH]; simpl; [done|].
  destruct (decide (k = c)) as [->|Hk]; simpl.
  - destruct (array_index c); [done | by apply sublist_cons].
  - destruct (array_index k); [done | by apply sublist_skip].
Qed.

Lemma StronglySorted_sublist {A} (R : relation A) l1 l2 :
  l1 `sublist_of` l2 → StronglySorted R l2 → StronglySorted R l1.
Proof.
  induction 1 as [|x l1 l2 Hsub IH|x l1 l2 Hsub IH]; [done|..].
  - rewrite !StronglySorted_cons, !Forall_forall. intros [Hall Hs]. split; [|auto].
    intros y Hy. apply Hall. by eapply elem_of_sublist.
  - rewrite StronglySorted_cons. intros [_ Hs]. auto.
Qed.

Lemma step_creation_order c st st' :
  creation_order st → step URL_new c st = Some st' →
  counter (storage st') ≤ MAX_SAFE_INTEGER → creation_order st'.
Proof.
  intros [Hsorted Hbound].
  destruct c as [fuel rnd now u cc|code track now|code| |code]; simpl.
  - destruct (shortenUrl _ _ _ _ _ _ _) as [r s|e s|] eqn:Hs; intros [= <-].
    + apply shortenUrl_Returned in Hs
        as [_ [[_ ->]|(_ & code & _ & Hfree%truthy_false_own & -> & ->)]]; [done|].
      simpl. intros Hsafe%js_increment_safe_inv. rewrite Hsafe.
      unfold creation_order, js_set. simpl. rewrite Hfree.
      destruct (array_index code) as [i|] eqn:Hidx.
      * rewrite named_ids_insert_index by done. split; [done|].
        intros i' (n & Hn & ->)%Hbound. exists n. split; [lia|done].
      * rewrite named_ids_app. simpl. rewrite Hidx. split.
        -- apply StronglySorted_app_2; [|done|repeat constructor].
           intros a b (n & Hn & ->)%Hbound ->%list_elem_of_singleton.
           exists n, (counter (storage st) + 1). repeat split; lia.
        -- intros i' [(n & Hn & ->)%Hbound| ->%list_elem_of_singleton]%elem_of_app.
           ++ exists n. split; [lia|done].
           ++ exists (counter (storage st) + 1). split; [lia|done].
    + by rewrite (shortenUrl_Thrown _ _ _ _ _ _ _ _ _ Hs).
  - intros [= <-] _. unfold expandUrl, get.
    destruct (own code (urls (storage st))) as [x|] eqn:Hown.
    + destruct track; simpl; [|done]. unfold creation_order. simpl.
      by rewrite (named_ids_replace_own code x).
    + by repeat case_match.
  - by intros [= <-].
  - by intros [= <-].
  - intros [= <-] _. unfold deleteUrl. case_match; simpl; [|done].
    unfold creation_order. simpl.
    pose proof (named_ids_js_delete code (urls (storage st))) as Hsub. split.
    + by eapply StronglySorted_sublist.
    + intros i Hi. apply Hbound. by eapply elem_of_sublist.
Qed.

Lemma named_ids_all (l : Urls) :
  (∀ k r, (k, r) ∈ l → array_index k = None) → named_ids l = id <$> l.*2.
Proof.
  induction l as [|[k r] l IH]; intros Hall; csimpl; [done|].
  rewrite (Hall k r) by left. rewrite IH; [done|].
  intros k' r' Hin. apply (Hall k' r'). by right.
Qed.

(** X29. [listUrls] lists the records in the order they were created, oldest
    first, in every state reached from an empty registry with the counter
    still within [Number.MAX_SAFE_INTEGER], as long as no code in the
    registry is an array index (a canonical integer below 2^32 - 1, which
    JavaScript lists first). *)
Lemma list_in_creation_order st :
  reachable URL_new st →
  counter (storage st) ≤ MAX_SAFE_INTEGER →
  (∀ k r, (k, r) ∈ urls (storage st) → array_index k = None) →
  StronglySorted older (id <$> listUrls st).
Proof.
  intros [cs ->] Hsafe Hall. unfold listUrls, Object_values.
  rewrite <- named_ids_all by done.
  enough (creation_order (run URL_new cs initial)) as [? _] by done.
  assert (creation_order initial) as Hinit.
  { split; simpl; [constructor | by intros i ?%elem_of_nil]. }
  clear Hall. revert Hinit Hsafe. generalize initial.
  induction cs as [|c cs IH]; intros st Hst; simpl; [done|].
  destruct (step URL_new c st) as [st'|] eqn:Hstep; [|done].
  intros Hsafe. apply IH; [|done].
  pose proof (run_counter URL_new cs st') as Hrun.
  apply (step_creation_order _ _ _ Hst Hstep). lia.
Qed.

End Methods.

(** * Properties of the command line *)

Section CommandLineProperties.

Variable URL_new : string → bool.

(** A call of [shortenUrl] changes no record that was there before. *)
Lemma shortenUrl_keeps_records fuel rnd now u cc st r st' :
  shortenUrl URL_new fuel rnd now u cc st = Returned r st' →
  (∀ k x, own k (urls (storage st)) = Some x → own k (urls (storage st')) = Some x)
  ∧ inherited st' = inherited st.
Proof.
  intros [_ [[_ ->]|(_ & code & _ & Hfree%truthy_false_own & -> & ->)]]%shortenUrl_Returned;
    [done|].
  split; [|done]. intros k x Hk. simpl. rewrite own_js_set.
  destruct (decide (code = k)) as [->|]; [congruence|done].
Qed.

(** X21. Only [shorten], [short], [delete] and the run without arguments
    can change anything: every other command line returns, and leaves the
    registry, the storage file and the inherited objects untouched. *)
Lemma cli_read_only fuel rnd now arg0 operands st :
  toLowerCase arg0 ∉ ["shorten"; "short"; "delete"]%string →
  ∃ out, handleCommandLineArgs URL_new fuel rnd now (arg0 :: operands) st
         = Some (out, st).
Proof.
  rewrite !not_elem_of_cons. intros (H1 & H2 & H3 & _).
  unfold handleCommandLineArgs.
  rewrite bool_decide_eq_false_2 by (intros [?|?]; done).
  case_bool_decide.
  { destruct operands as [|code ?]; [eauto|].
    pose proof (expand_untracked_state code (now 0%nat) st) as Hst.
    destruct (expandUrl code false (now 0%nat) st) as [v st'].
    simpl in Hst. subst st'. destruct v; [case_bool_decide|..]; eauto. }
  case_bool_decide.
  { destruct operands as [|code ?]; [eauto|].
    destruct (getStats (Some code) st); eauto. }
  case_bool_decide; [eauto|].
  rewrite (bool_decide_eq_false_2 (_ = "delete"%string)) by done. eauto.
Qed.

(** X22. Outside the run without arguments, the command line never counts
    a click or touches a stored record in any other way: a record still
    there afterwards is the record it was, and nothing is written onto an
    inherited object. *)
Lemma cli_keeps_records fuel rnd now arg0 operands st out st' :
  handleCommandLineArgs URL_new fuel rnd now (arg0 :: operands) st = Some (out, st') →
  (∀ k r r', own k (urls (storage st)) = Some r →
             own k (urls (storage st')) = Some r' → r' = r)
  ∧ inherited st' = inherited st.
Proof.
  unfold handleCommandLineArgs. case_bool_decide.
  { destruct operands as [|u operands']; [same_state|].
    destruct (shortenUrl _ _ _ _ _ _ _) as [r s|e s|] eqn:Hs; [| |done].
    - intros [= _ <-]. apply shortenUrl_keeps_records in Hs as [Hk Hi].
      split; [|done]. intros k x x' Hx Hx'. apply Hk in Hx. congruence.
    - intros [= _ <-]. rewrite (shortenUrl_Thrown _ _ _ _ _ _ _ _ _ Hs).
      split; [congruence|done]. }
  case_bool_decide.
  { destruct operands as [|code ?]; [same_state|].
    pose proof (expand_untracked_state code (now 0%nat) st) as Hst.
    destruct (expandUrl code false (now 0%nat) st) as [v s].
    simpl in Hst. subst s.
    destruct v; [case_bool_decide|..]; same_state. }
  case_bool_decide.
  { destruct operands as [|code ?]; [same_state|].
    destruct (getStats (Some code) st); same_state. }
  case_bool_decide; [same_state|].
  case_bool_decide; [|same_state].
  destruct operands as [|code ?]; [same_state|].
  unfold deleteUrl. destruct (truthy (get code st)).
  - intros [= _ <-]. simpl. split; [|done]. intros k r r' Hr.
    rewrite own_js_delete. case_decide; congruence.
  - same_state.
Qed.



(** What the [expand] command prints, in terms of [expandUrl]. *)
Lemma expand_command fuel rnd now arg0 code operands st :
  toLowerCase arg0 = "expand"%string →
  handleCommandLineArgs URL_new fuel rnd now (arg0 :: code :: operands) st
  = Some ([match (expandUrl code false (now 0%nat) st).1 with
           | js_string url =>
               if bool_decide (url = EmptyString) then NotFound else Original url
           | _ => NotFound
           end], st).
Proof.
  intros Hcmd. unfold handleCommandLineArgs. rewrite Hcmd. simpl.
  pose proof (expand_untracked_state code (now 0%nat) st) as Hst.
  destruct (expandUrl code false (now 0%nat) st) as [v s]. simpl in *. subst s.
  destruct v; [case_bool_decide|..]; done.
Qed.

(** A stored URL is not the empty string, when the parser rejects that. *)
Lemma stored_url_nonempty st k r :
  registry_inv URL_new st → URL_new EmptyString = false →
  (k, r) ∈ urls (storage st) → originalUrl r ≠ EmptyString.
Proof.
  intros Hinv Hempty Hin Hr.
  pose proof (inv_valid _ _ Hinv k r Hin) as Hvalid.
  unfold isValidUrl in Hvalid. rewrite Hr, Hempty in Hvalid. done.
Qed.

(** The record [shortenUrl] returns, whichever way, expands to the URL. *)
Lemma returned_record_expands fuel rnd now u cc st r st' :
  registry_inv URL_new st →
  shortenUrl URL_new fuel rnd now u cc st = Returned r st' →
  ∀ track now', (expandUrl (shortCode r) track now' st').1 = js_string u.
Proof.
  intros Hinv [_ [[Hfind ->]|(_ & code & _ & _ & -> & ->)]]%shortenUrl_Returned
    track now'.
  - apply findExisting_Some in Hfind as [Hu [k Hin]].
    rewrite (inv_code _ _ Hinv k r Hin). unfold expandUrl, get.
    rewrite (elem_own _ _ _ (inv_keys _ _ Hinv) Hin).
    destruct track; simpl; congruence.
  - unfold expandUrl, get. simpl. rewrite own_js_set, decide_True by done.
    by destruct track.
Qed.

(** X24. The [expand] command prints the URL stored under the code, or "not
    found" when no record is stored under it, and changes nothing: it never
    counts a click. *)
Lemma cli_expand fuel rnd now arg0 code operands st :
  registry_inv URL_new st → URL_new EmptyString = false →
  toLowerCase arg0 = "expand"%string →
  handleCommandLineArgs URL_new fuel rnd now (arg0 :: code :: operands) st
  = Some ([match own code (urls (storage st)) with
           | Some r => Original (originalUrl r)
           | None => NotFound
           end], st).
Proof.
  intros Hinv Hempty Hcmd. rewrite expand_command by done.
  unfold expandUrl, get.
  destruct (own code (urls (storage st))) as [r|] eqn:Hown; simpl.
  - rewrite bool_decide_eq_false_2; [done|].
    eapply stored_url_nonempty; eauto using own_Some_elem.
  - by repeat case_match.
Qed.

(** X25. What [shorten] prints can be expanded: when the command prints a
    short URL and a code, the short URL is the default base URL, a slash and
    that code, and an [expand] of the code, run afterwards, prints the URL
    that was shortened. *)
Lemma cli_shorten_then_expand fuel rnd now arg0 u operands st full code st'
    fuel' rnd' now' arg0' operands' :
  registry_inv URL_new st → URL_new EmptyString = false →
  toLowerCase arg0 ∈ ["shorten"; "short"]%string →
  toLowerCase arg0' = "expand"%string →
  handleCommandLineArgs URL_new fuel rnd now (arg0 :: u :: operands) st
    = Some ([ShortUrl full; Code code], st') →
  full = "https://short.ly/" +:+ code
  ∧ handleCommandLineArgs URL_new fuel' rnd' now' (arg0' :: code :: operands') st'
    = Some ([Original u], st').
Proof.
  intros Hinv Hempty Hcmd Hcmd'. unfold handleCommandLineArgs at 1.
  rewrite bool_decide_eq_true_2
    by (revert Hcmd; rewrite !elem_of_cons, elem_of_nil; tauto).
  destruct (shortenUrl _ _ _ _ _ _ _) as [r s|e s|] eqn:Hs; [|done..].
  intros [= <- <- <-]. split; [done|].
  rewrite expand_command by done.
  rewrite (returned_record_expands _ _ _ _ _ _ _ _ Hinv Hs).
  rewrite bool_decide_eq_false_2; [done|].
  apply shortenUrl_Returned in Hs as [Hvalid _]. intros ->.
  unfold isValidUrl in Hvalid. by rewrite Hempty in Hvalid.
Qed.

(** ** The demonstration, run again *)

Lemma findExisting_url_list u st :
  u ∈ url_list st → ∃ r, findExisting u st = Some r.
Proof.
  unfold url_list, Object_values.
  intros (r & -> & (kr & -> & Hin)%list_elem_of_fmap)%list_elem_of_fmap.
  destruct (findExisting (originalUrl kr.2) st) as [e|] eqn:Hfind; [eauto|].
  destruct kr as [k r]. by destruct (findExisting_None _ _ _ _ Hfind Hin).
Qed.

Lemma grows_refl st : grows st st.
Proof. by repeat split. Qed.

Lemma grows_trans st1 st2 st3 : grows st1 st2 → grows st2 st3 → grows st1 st3.
Proof.
  intros (H1 & H2 & H3) (H1' & H2' & H3'). repeat split; by etrans.
Qed.

Lemma url_list_replace_own c x x' (l : Urls) :
  own c l = Some x → originalUrl x' = originalUrl x →
  originalUrl <$> (replace_own c x' l).*2 = originalUrl <$> l.*2.
Proof.
  intros Hown Hu. induction l as [|[k v] l IH]; csimpl in *; [done|].
  destruct (decide (k = c)) as [->|Hk]; csimpl.
  - injection Hown as ->. by rewrite Hu.
  - by rewrite IH.
Qed.

Lemma shortenUrl_grows fuel rnd now u cc st r st' :
  shortenUrl URL_new fuel rnd now u cc st = Returned r st' →
  grows st st' ∧ u ∈ url_list st'.
Proof.
  intros [_ [[Hfind ->]|(_ & code & _ & Hfree%truthy_false_own & -> & ->)]]%shortenUrl_Returned.
  - split; [apply grows_refl|].
    apply findExisting_Some in Hfind as [<- [k Hin]].
    unfold url_list, Object_values. apply list_elem_of_fmap. exists r. split; [done|].
    apply list_elem_of_fmap. by exists (k, r).
  - set (r := {| id := _ |}).
    pose proof (js_set_fresh_perm code r _ Hfree) as Hperm.
    unfold grows, url_list, Object_values. simpl. rewrite Hperm. csimpl.
    repeat split; try done; try (intros x Hx; by right). by left.
Qed.

Lemma expandUrl_grows c track now st :
  grows st (expandUrl c track now st).2
  ∧ counter (storage (expandUrl c track now st).2) = counter (storage st)
  ∧ (urls (storage (expandUrl c track now st).2)).*1 = (urls (storage st)).*1.
Proof.
  unfold expandUrl, get.
  destruct (own c (urls (storage st))) as [x|] eqn:Hown.
  - destruct track; simpl; [|by split; [apply grows_refl|]].
    split; [|split; [done | apply keys_replace_own]].
    unfold grows, url_list, Object_values. simpl.
    rewrite (url_list_replace_own c x) by done. by rewrite keys_replace_own.
  - repeat case_match; simpl; (split; [|done]); try apply grows_refl.
    all: unfold grows; simpl; repeat split; try done; intros x Hx; by right.
Qed.

Lemma truthy_grows c st st' :
  grows st st' → truthy (get c st) = true → truthy (get c st') = true.
Proof.
  intros (_ & Hkeys & Hinh). unfold get.
  destruct (own c (urls (storage st'))) as [x'|] eqn:Hown'; [done|].
  destruct (own c (urls (storage st))) as [x|] eqn:Hown.
  { apply own_None_keys in Hown'. destruct Hown'. apply Hkeys.
    apply own_Some_elem in Hown. apply list_elem_of_fmap. by exists (c, x). }
  case_bool_decide; [done|]. unfold polluted.
  case_bool_decide as Hp; simpl; [|done].
  rewrite (bool_decide_eq_true_2 (_ ∈ (inherited st').*1)); [done|]. by apply Hinh.
Qed.

Lemma settled_grows u cc st st' :
  grows st st' → settled URL_new u cc st → settled URL_new u cc st'.
Proof.
  intros Hg [?|[Hu|(c & ? & ? & Hc)]].
  - by left.
  - right; left. by apply Hg.
  - right; right. exists c. eauto using truthy_grows.
Qed.

(** Where a call has nothing left to do, it returns at once and leaves the
    state alone, whatever the random source. *)
Lemma settled_shorten fuel rnd now u cc st :
  settled URL_new u cc st →
  (∃ r, shortenUrl URL_new fuel rnd now u cc st = Returned r st)
  ∨ (∃ e, shortenUrl URL_new fuel rnd now u cc st = Thrown e st).
Proof.
  intros Hs. unfold shortenUrl.
  destruct (isValidUrl URL_new u) eqn:Hvalid; simpl; [|eauto].
  destruct (findExisting u st) as [e|] eqn:Hfind; [eauto|].
  destruct Hs as [?|[Hu|(c & -> & Hc & Htaken)]]; [congruence| |].
  - apply findExisting_url_list in Hu as [r Hr]. congruence.
  - unfold js_or. rewrite bool_decide_eq_false_2 by done. rewrite Htaken. eauto.
Qed.

(** After a call that returned or threw, it has nothing left to do. *)
Lemma shorten_settles fuel rnd now u cc st :
  match shortenUrl URL_new fuel rnd now u cc st with
  | Returned _ st' | Thrown _ st' => grows st st' ∧ settled URL_new u cc st'
  | Diverged => True
  end.
Proof.
  destruct (shortenUrl _ _ _ _ _ _ _) as [r s|e s|] eqn:Hs; [| |done].
  - apply shortenUrl_grows in Hs as [Hg Hu]. split; [done|]. right; by left.
  - pose proof (shortenUrl_Thrown _ _ _ _ _ _ _ _ _ Hs) as ->.
    split; [apply grows_refl|]. revert Hs. unfold shortenUrl.
    destruct (isValidUrl URL_new u) eqn:Hvalid; simpl; [|intros _; by left].
    destruct (findExisting u st); [done|].
    destruct cc as [c|]; simpl.
    + case_bool_decide as Hc.
      * destruct (generateShortCode fuel rnd 0 st) as [code|] eqn:Hgen; [|done].
        apply generateShortCode_spec in Hgen as (k & -> & _ & -> & _). done.
      * destruct (truthy (get c st)) eqn:Hget; [|done].
        intros _. right; right. eauto.
    + destruct (generateShortCode fuel rnd 0 st) as [code|] eqn:Hgen; [|done].
      apply generateShortCode_spec in Hgen as (k & -> & _ & -> & _). done.
Qed.

Lemma demo_forEach_settles fuel rnd now us : ∀ i st out st',
  demo_forEach URL_new fuel rnd now i us st = Some (out, st') →
  grows st st' ∧ ∀ u, u ∈ us → settled URL_new u None st'.
Proof.
  induction us as [|u us IH]; intros i st out st'; simpl.
  - intros [= _ <-]. split; [apply grows_refl|]. by intros u ?%elem_of_nil.
  - unfold demo_shorten.
    pose proof (shorten_settles fuel (rnd i) (now i) u None st) as Hs.
    destruct (shortenUrl _ _ _ _ _ _ _) as [r s|e s|]; [| |done].
    all: destruct Hs as [Hg Hset].
    all: destruct (demo_forEach _ _ _ _ _ _ _) as [[o s']|] eqn:Hrest; [|done].
    all: intros [= _ <-]; apply IH in Hrest as [Hg' Hrest].
    all: split; [by eapply grows_trans|].
    all: intros v [->|Hv]%elem_of_cons; [by eapply settled_grows | by apply Hrest].
Qed.

Lemma demo_forEach_settled fuel rnd now us st :
  (∀ u, u ∈ us → settled URL_new u None st) →
  ∀ i, ∃ out, demo_forEach URL_new fuel rnd now i us st = Some (out, st).
Proof.
  induction us as [|u us IH]; intros Hset i; simpl; [eauto|].
  unfold demo_shorten.
  destruct (settled_shorten fuel (rnd i) (now i) u None st) as [[r ->]|[e ->]].
  { apply Hset. by left. }
  all: destruct (IH (λ v Hv, Hset v (list_elem_of_further _ _ _ Hv)) (S i)) as [o ->]; eauto.
Qed.

(** After the demonstration, none of its calls has anything left to do. *)
Lemma demo_settles fuel rnd now st out st1 :
  demonstrateUrlShortener URL_new fuel rnd now st = Some (out, st1) →
  (∀ u, u ∈ testUrls → settled URL_new u None st1)
  ∧ settled URL_new "https://example.com" (Some "example"%string) st1.
Proof.
  unfold demonstrateUrlShortener.
  destruct (demo_forEach _ _ _ _ _ _ _) as [[o1 s1]|] eqn:H1; [|done]. simpl.
  apply demo_forEach_settles in H1 as [_ Hset1].
  unfold demo_custom.
  pose proof (shorten_settles fuel (rnd 3%nat) (now 3%nat) "https://example.com"
                (Some "example"%string) s1) as Hs.
  destruct (shortenUrl _ _ _ _ _ _ _) as [r s2|e s2|]; [| |done]; simpl.
  all: destruct Hs as [Hg2 Hset2].
  all: assert (grows s2 st1 →
         (∀ u, u ∈ testUrls → settled URL_new u None st1)
         ∧ settled URL_new "https://example.com" (Some "example"%string) st1) as Hend
    by (intros Hg; split; [intros u Hu|];
        eauto using settled_grows, grows_trans).
  all: unfold demo_expand; destruct (head (listUrls s2)) as [f|].
  all: try (pose proof (expandUrl_grows (shortCode f) true (now 4%nat) s2) as [Hg3 _];
            destruct (expandUrl (shortCode f) true (now 4%nat) s2) as [v s3]).
  all: intros [= _ <-]; apply Hend; first [done | apply grows_refl].
Qed.

(** Where none of its calls has anything left to do, the demonstration
    returns and only counts a click. *)
Lemma demo_settled fuel rnd now st :
  (∀ u, u ∈ testUrls → settled URL_new u None st) →
  settled URL_new "https://example.com" (Some "example"%string) st →
  ∃ out st',
    demonstrateUrlShortener URL_new fuel rnd now st = Some (out, st')
    ∧ counter (storage st') = counter (storage st)
    ∧ (urls (storage st')).*1 = (urls (storage st)).*1.
Proof.
  intros Hset1 Hset2. unfold demonstrateUrlShortener.
  destruct (demo_forEach_settled fuel rnd now testUrls st Hset1 0%nat) as [o1 ->].
  simpl. unfold demo_custom.
  destruct (settled_shorten fuel (rnd 3%nat) (now 3%nat) _ _ st Hset2)
    as [[r ->]|[e ->]]; simpl.
  all: unfold demo_expand; destruct (head (listUrls st)) as [f|]; [|eauto].
  all: pose proof (expandUrl_grows (shortCode f) true (now 4%nat) st) as (_ & Hc & Hk).
  all: destruct (expandUrl (shortCode f) true (now 4%nat) st) as [v s3]; eauto.
Qed.

(** X26. Running the demonstration again never adds a record: once it has
    returned, a second run returns whatever the random source draws, and
    leaves the counter and the codes of the registry, in their order, as
    they are (it only counts one more click). *)
Lemma demo_again_adds_nothing fuel rnd now st out st1 fuel' rnd' now' :
  demonstrateUrlShortener URL_new fuel rnd now st = Some (out, st1) →
  ∃ out' st2,
    demonstrateUrlShortener URL_new fuel' rnd' now' st1 = Some (out', st2)
    ∧ counter (storage st2) = counter (storage st1)
    ∧ (urls (storage st2)).*1 = (urls (storage st1)).*1.
Proof.
  intros [Hset1 Hset2]%demo_settles. by apply demo_settled.
Qed.

End CommandLineProperties.

(** * The further properties on concrete inputs *)

(** The demonstration on an empty registry: four records, one click. *)
Example demo_on_empty_registry :
  fst <$> example_demo
  = Some [ DemoBanner; DemoShortenHeading;
           DemoOriginal "https://www.google.com";
           DemoShortUrl "https://short.ly/dkryFM"; DemoCode "dkryFM";
           DemoOriginal "https://github.com/microsoft/typescript";
           DemoShortUrl "https://short.ly/ovCJQX"; DemoCode "ovCJQX";
           DemoOriginal "https://nodejs.org/en/docs/";
           DemoShortUrl "https://short.ly/zGNU18"; DemoCode "zGNU18";
           DemoCustomHeading; DemoCustomUrl "https://short.ly/example";
           DemoExpandHeading; DemoExpandCode "dkryFM";
           DemoExpanded (js_string "https://www.google.com");
           DemoStatsHeading; DemoTotalUrls 4; DemoTotalClicks 1;
           DemoPopularHeading; DemoPopular 1 "dkryFM" 1; DemoPopular 2 "ovCJQX" 0;
           DemoPopular 3 "zGNU18" 0; DemoPopular 4 "example" 0 ].
Proof. by vm_compute. Qed.

Lemma shorten_custom_code_witness :
  ∃ st',
    shortenUrl example_URL 0 example_rnd 3000 "https://www.google.com"
      (Some "g"%string) example_state =
      Returned {| id := "url_" +:+ pretty (counter (storage example_state) + 1);
                  originalUrl := "https://www.google.com"; shortCode := "g";
                  createdAt := 3000; clickCount := 0; lastAccessed := None |} st'
    ∧ own "g" (urls (storage st')) =
        Some {| id := "url_" +:+ pretty (counter (storage example_state) + 1);
                originalUrl := "https://www.google.com"; shortCode := "g";
                createdAt := 3000; clickCount := 0; lastAccessed := None |}
    ∧ (∀ k, k ≠ "g"%string →
            own k (urls (storage st')) = own k (urls (storage example_state)))
    ∧ counter (storage st') = counter (storage example_state) + 1
    ∧ saved st' = storage st' :: saved example_state
    ∧ ∀ track now',
        (expandUrl "g" track now' st').1 = js_string "https://www.google.com".
Proof.
  apply (shorten_custom_code example_URL 0 example_rnd 3000
           "https://www.google.com" "g" example_state).
  - reflexivity.
  - reflexivity.
  - discriminate.
  - reflexivity.
  - vm_compute. discriminate.
Defined.

Lemma code_error_only_for_custom_code_witness :
  example_state = example_state
  ∧ isValidUrl example_URL "https://www.google.com" = true
  ∧ findExisting "https://www.google.com" example_state = None
  ∧ ∃ c, Some "mycode"%string = Some c ∧ c ≠ EmptyString
         ∧ truthy (get c example_state) = true.
Proof.
  apply (code_error_only_for_custom_code example_URL 3 example_rnd 3000
           "https://www.google.com" (Some "mycode"%string) example_state example_state).
  reflexivity.
Defined.

Lemma totals_after_expand_witness :
  totalClicks (getTotals (expandUrl "node" true 2900 example_state).2)
    = totalClicks (getTotals example_state) + 1
  ∧ totalUrls (getTotals (expandUrl "node" true 2900 example_state).2)
    = totalUrls (getTotals example_state).
Proof.
  apply (totals_after_expand "node" other_record 2900 example_state);
    reflexivity.
Defined.

Lemma totals_after_construct_witness :
  ∃ r st',
    (totalUrls (getTotals st') = S (totalUrls (getTotals example_state))
     ∧ totalClicks (getTotals st') = totalClicks (getTotals example_state)
     ∧ listUrls st' ≡ₚ r :: listUrls example_state
     ∧ (array_index (shortCode r) = None → listUrls st' = listUrls example_state ++ [r]))
    ∧ shortCode r = "dkryFM"%string.
Proof.
  eexists _, _. split.
  - apply (totals_after_construct example_URL 1 example_rnd 3000
             "https://www.google.com" None example_state); reflexivity.
  - reflexivity.
Defined.

Lemma totals_after_delete_witness :
  totalUrls (getTotals example_state)
    = S (totalUrls (getTotals (deleteUrl "node" example_state).2))
  ∧ totalClicks (getTotals example_state)
    = totalClicks (getTotals (deleteUrl "node" example_state).2)
      + clickCount other_record.
Proof.
  apply (totals_after_delete example_URL "node" other_record example_state).
  - apply example_state_inv.
  - reflexivity.
  - vm_compute. discriminate.
Defined.

Lemma clicks_count_expansions_witness :
  ∃ r',
    own "mycode"
      (urls (storage (run example_URL
         ((λ t, CallExpand "mycode" true t) <$> [1600; 1700; 1800]) example_state)))
      = Some r'
    ∧ clickCount r' = clickCount example_record + N.of_nat (length [1600; 1700; 1800])
    ∧ lastAccessed r'
      = from_option Some (lastAccessed example_record) (last [1600; 1700; 1800])
    ∧ (id r', originalUrl r', shortCode r', createdAt r')
      = (id example_record, originalUrl example_record, shortCode example_record,
         createdAt example_record).
Proof.
  apply (clicks_count_expansions example_URL "mycode" [1600; 1700; 1800]
           example_record example_state).
  - reflexivity.
  - vm_compute. discriminate.
Defined.

Lemma counter_counts_constructed_witness :
  counter (storage (run example_URL
    [ CallShorten 1 example_rnd 3000 "https://www.google.com" (Some "g"%string);
      CallShorten 1 example_rnd 3100 "https://example.com" (Some "again"%string);
      CallDelete "g";
      CallShorten 1 example_rnd 3200 "https://www.google.com" (Some "g"%string) ]
    example_state))
  = counter (storage example_state)
    + N.of_nat (length (assigned example_URL
        [ CallShorten 1 example_rnd 3000 "https://www.google.com" (Some "g"%string);
          CallShorten 1 example_rnd 3100 "https://example.com" (Some "again"%string);
          CallDelete "g";
          CallShorten 1 example_rnd 3200 "https://www.google.com" (Some "g"%string) ]
        example_state)).
Proof.
  apply (counter_counts_constructed example_URL
    [ CallShorten 1 example_rnd 3000 "https://www.google.com" (Some "g"%string);
      CallShorten 1 example_rnd 3100 "https://example.com" (Some "again"%string);
      CallDelete "g";
      CallShorten 1 example_rnd 3200 "https://www.google.com" (Some "g"%string) ]
    example_state).
  vm_compute. discriminate.
Defined.

Lemma reachable_in_sync_witness :
  in_sync
    (run example_URL
       [ CallShorten 1 example_rnd 1000 "https://example.com" (Some "mycode"%string);
         CallExpand "mycode" true 1400; CallExpand "mycode" false 1450;
         CallDelete "nosuch" ] initial).
Proof.
  apply (reachable_in_sync example_URL). eexists. reflexivity.
Defined.

Lemma delete_then_gone_witness :
  (deleteUrl "node" example_state).1 = true
  ∧ deleteUrl "node" (deleteUrl "node" example_state).2
    = (false, (deleteUrl "node" example_state).2)
  ∧ expandUrl "node" true 2900 (deleteUrl "node" example_state).2
    = (js_null, (deleteUrl "node" example_state).2).
Proof.
  apply (delete_then_gone "node" other_record true 2900 example_state).
  - reflexivity.
  - unfold prototype_names. rewrite !elem_of_cons, elem_of_nil.
    intros H. repeat (destruct H as [H|H]; [discriminate H|]). exact H.
  - discriminate.
Defined.

Lemma cli_read_only_witness :
  ∃ out,
    handleCommandLineArgs example_URL 1 example_rnds example_now
      ["Stats"; "node"]%string example_state = Some (out, example_state).
Proof.
  apply (cli_read_only example_URL 1 example_rnds example_now "Stats"
           ["node"%string] example_state).
  rewrite !elem_of_cons, elem_of_nil.
  intros H. repeat (destruct H as [H|H]; [discriminate H|]). exact H.
Defined.

Lemma cli_keeps_records_witness :
  (∀ k r r', own k (urls (storage example_state)) = Some r →
             own k (urls (storage
               (saveStorage (with_storage
                  {| urls := js_delete "node" (urls (storage example_state));
                     counter := counter (storage example_state) |} example_state))))
             = Some r' → r' = r)
  ∧ inherited (saveStorage (with_storage
                  {| urls := js_delete "node" (urls (storage example_state));
                     counter := counter (storage example_state) |} example_state))
    = inherited example_state.
Proof.
  apply (cli_keeps_records example_URL 1 example_rnds example_now "delete"
           ["node"%string] example_state [Deleted "node"]).
  reflexivity.
Defined.


Lemma cli_expand_witness :
  handleCommandLineArgs example_URL 1 example_rnds example_now
    ["EXPAND"; "node"]%string example_state
  = Some ([match own "node" (urls (storage example_state)) with
           | Some r => Original (originalUrl r)
           | None => NotFound
           end], example_state).
Proof.
  apply (cli_expand example_URL 1 example_rnds example_now "EXPAND" "node" []
           example_state).
  - apply example_state_inv.
  - reflexivity.
  - reflexivity.
Defined.

Lemma cli_shorten_then_expand_witness :
  "https://short.ly/g"%string = "https://short.ly/" +:+ "g"
  ∧ handleCommandLineArgs example_URL 1 example_rnds example_now
      ["expand"; "g"]%string
      (from_option snd initial
         (handleCommandLineArgs example_URL 1 example_rnds example_now
            ["short"; "https://www.google.com"; "g"]%string example_state))
    = Some ([Original "https://www.google.com"],
            from_option snd initial
              (handleCommandLineArgs example_URL 1 example_rnds example_now
                 ["short"; "https://www.google.com"; "g"]%string example_state)).
Proof.
  apply (cli_shorten_then_expand example_URL 1 example_rnds example_now "short"
           "https://www.google.com" ["g"%string] example_state
           "https://short.ly/g" "g" _ 1 example_rnds example_now "expand" []).
  - apply example_state_inv.
  - reflexivity.
  - simpl. right. left.
  - reflexivity.
  - reflexivity.
Defined.

Lemma demo_again_adds_nothing_witness :
  ∃ out' st2,
    demonstrateUrlShortener example_URL 0 (λ _ _, 0%nat) example_now example_demo_state
      = Some (out', st2)
    ∧ counter (storage st2) = counter (storage example_demo_state)
    ∧ (urls (storage st2)).*1 = (urls (storage example_demo_state)).*1.
Proof.
  apply (demo_again_adds_nothing example_URL 2 example_rnds example_now initial
           (from_option fst [] example_demo) example_demo_state).
  vm_compute. reflexivity.
Defined.

Lemma stats_after_expand_witness :
  getStats (Some "node"%string) (expandUrl "node" true 2900 example_state).2
  = Summary (originalUrl other_record) (shortCode other_record)
      (clickCount other_record + 1) (createdAt other_record) (Some 2900).
Proof.
  apply (stats_after_expand "node" other_record 2900 example_state).
  - reflexivity.
  - discriminate.
  - vm_compute. discriminate.
Defined.

Lemma list_in_creation_order_witness :
  StronglySorted older (id <$> listUrls example_demo_state).
Proof.
  apply (list_in_creation_order example_URL example_demo_state).
  - exists [ CallShorten 2 (example_rnds 0) (example_now 0) "https://www.google.com" None;
             CallShorten 2 (example_rnds 1) (example_now 1)
               "https://github.com/microsoft/typescript" None;
             CallShorten 2 (example_rnds 2) (example_now 2)
               "https://nodejs.org/en/docs/" None;
             CallShorten 2 (example_rnds 3) (example_now 3) "https://example.com"
               (Some "example"%string);
             CallExpand "dkryFM" true (example_now 4) ].
    vm_compute. reflexivity.
  - vm_compute. discriminate.
  - intros k r Hin.
    assert (k ∈ (urls (storage example_demo_state)).*1) as Hk
      by (apply list_elem_of_fmap; by exists (k, r)).
    assert ((urls (storage example_demo_state)).*1
            = ["dkryFM"; "ovCJQX"; "zGNU18"; "example"]%string) as Hkeys
      by (vm_compute; reflexivity).
    rewrite Hkeys, !elem_of_cons, elem_of_nil in Hk.
    destruct Hk as [->|[->|[->|[->|[]]]]]; vm_compute; reflexivity.
Defined.
